(** * Waveform matching: the two-component distance of Tolias et al. (2007)

    A shallow embedding of [waveform_matching.py] and the properties its
    specification states about [compute_waveform_distance].

    Numbers.  The program computes on IEEE floating point numbers.  The
    embedding keeps the special values (NaN and the two infinities) and the
    rules by which numpy produces and propagates them, and takes the finite
    values to be exact reals: rounding, overflow, underflow and the sign of
    zero are outside this model.  Every zero the program divides by is a
    sum of squares or the square root of one, so it is a positive zero.
    Module [F64] repeats lines 20-21 and 36-65 on binary64 numbers; the runs
    of [F64_examples] show where rounding, overflow and underflow part the
    program from the exact formula, and the theorems that hold of the
    exact formula only say so.

    Arrays.  An input is a 1-dimensional or a 2-dimensional array, a shape
    together with a row-major buffer, as numpy stores it.

    Errors.  Python exceptions are the [Raise] results of a small error
    monad; the failed [assert] is [ShapeMismatch]. *)

From Stdlib Require Import String.
From Stdlib Require PrimFloat FloatOps SpecFloat.
From Stdlib Require Import Reals Lra Lia List Arith Bool ZArith.
Import ListNotations.

Open Scope R_scope.

(* ================================================================== *)
(** ** Extended reals: the values of a float64 cell *)

Inductive xreal : Type :=
| Fin (r : R)
| PInf
| NInf
| NaN.

Definition is_nan (a : xreal) : bool :=
  match a with NaN => true | _ => false end.

Definition is_fin (a : xreal) : Prop :=
  match a with Fin _ => True | _ => False end.

Definition toR (a : xreal) : R :=
  match a with Fin r => r | _ => 0 end.

Definition xneg (a : xreal) : xreal :=
  match a with
  | Fin r => Fin (- r)
  | PInf => NInf
  | NInf => PInf
  | NaN => NaN
  end.

Definition xadd (a b : xreal) : xreal :=
  match a, b with
  | NaN, _ | _, NaN => NaN
  | Fin r, Fin s => Fin (r + s)
  | PInf, NInf | NInf, PInf => NaN
  | PInf, _ | _, PInf => PInf
  | NInf, _ | _, NInf => NInf
  end.

Definition xsub (a b : xreal) : xreal := xadd a (xneg b).

(** An infinity times a finite factor: the sign follows the factor, and
    infinity times zero is NaN. *)
Definition inf_times (positive : bool) (r : R) : xreal :=
  match total_order_T r 0 with
  | inleft (left _) => if positive then NInf else PInf
  | inleft (right _) => NaN
  | inright _ => if positive then PInf else NInf
  end.

Definition xmul (a b : xreal) : xreal :=
  match a, b with
  | NaN, _ | _, NaN => NaN
  | Fin r, Fin s => Fin (r * s)
  | PInf, Fin s | Fin s, PInf => inf_times true s
  | NInf, Fin s | Fin s, NInf => inf_times false s
  | PInf, PInf | NInf, NInf => PInf
  | PInf, NInf | NInf, PInf => NInf
  end.

(** A finite value over a finite divisor.  Dividing by zero raises nothing:
    [0/0] is NaN and [r/0] is the infinity of the sign of [r]. *)
Definition fin_div (r s : R) : xreal :=
  if Req_dec_T s 0 then
    match total_order_T r 0 with
    | inleft (left _) => NInf
    | inleft (right _) => NaN
    | inright _ => PInf
    end
  else Fin (r / s).

(** An infinity over a finite divisor. *)
Definition inf_over (positive : bool) (s : R) : xreal :=
  if Rlt_dec s 0
  then (if positive then NInf else PInf)
  else (if positive then PInf else NInf).

Definition xdiv (a b : xreal) : xreal :=
  match a, b with
  | NaN, _ | _, NaN => NaN
  | Fin r, Fin s => fin_div r s
  | Fin _, _ => Fin 0
  | PInf, Fin s => inf_over true s
  | NInf, Fin s => inf_over false s
  | _, _ => NaN
  end.

(** [np.sqrt] *)
Definition xsqrt (a : xreal) : xreal :=
  match a with
  | Fin r => if Rlt_dec r 0 then NaN else Fin (sqrt r)
  | PInf => PInf
  | _ => NaN
  end.

(** [np.log]: the logarithm of zero is minus infinity, that of a negative
    number NaN. *)
Definition xlog (a : xreal) : xreal :=
  match a with
  | Fin r =>
      match total_order_T r 0 with
      | inleft (left _) => NaN
      | inleft (right _) => NInf
      | inright _ => Fin (ln r)
      end
  | PInf => PInf
  | _ => NaN
  end.

(** [np.abs] *)
Definition xabs (a : xreal) : xreal :=
  match a with
  | Fin r => Fin (Rabs r)
  | NaN => NaN
  | _ => PInf
  end.

(** Python's [a > b]: false as soon as one side is NaN. *)
Definition xgtb (a b : xreal) : bool :=
  match a, b with
  | NaN, _ | _, NaN => false
  | Fin r, Fin s => if Rlt_dec s r then true else false
  | PInf, PInf => false
  | PInf, _ => true
  | Fin _, NInf => true
  | _, _ => false
  end.

(** [np.maximum], the step of [np.max]: NaN wins. *)
Definition xmaximum (a b : xreal) : xreal :=
  match a, b with
  | NaN, _ | _, NaN => NaN
  | _, _ => if xgtb b a then b else a
  end.

(* ================================================================== *)
(** ** Exceptions *)

Inductive exn : Type :=
| AssertionError (msg : string)
| IndexError
| ValueError.

Inductive result (A : Type) : Type :=
| Ok (a : A)
| Raise (e : exn).

Arguments Ok {A} a.
Arguments Raise {A} e.

Definition bind {A B : Type} (m : result A) (k : A -> result B) : result B :=
  match m with
  | Ok a => k a
  | Raise e => Raise e
  end.

Notation "x <- m ;; k" := (bind m (fun x => k))
  (at level 61, m at next level, right associativity).
Notation "' pat <- m ;; k" := (bind m (fun v => match v with pat => k end))
  (at level 61, pat pattern, m at next level, right associativity).

(** The failed assertion of line 39. *)
Definition ShapeMismatch : exn :=
  AssertionError "arrays x and y must have the same shape"%string.

(* ================================================================== *)
(** ** Arrays *)

(** A 1-dimensional array of shape [(length data,)], or a 2-dimensional
    one of shape [(n, c)] over a row-major buffer. *)
Inductive ndarray : Type :=
| Arr1 (data : list xreal)
| Arr2 (n c : nat) (data : list xreal).

Definition shape (x : ndarray) : list nat :=
  match x with
  | Arr1 d => [length d]
  | Arr2 n c _ => [n; c]
  end.

Definition ndim (x : ndarray) : nat := length (shape x).

Definition buffer (x : ndarray) : list xreal :=
  match x with
  | Arr1 d => d
  | Arr2 _ _ d => d
  end.

(** The buffer of a numpy array holds exactly the entries of its shape. *)
Definition well_formed (x : ndarray) : Prop :=
  match x with
  | Arr1 _ => True
  | Arr2 n c d => length d = (n * c)%nat
  end.

(** [x.shape[k]] *)
Definition shape_at (x : ndarray) (k : nat) : result nat :=
  match nth_error (shape x) k with
  | Some d => Ok d
  | None => Raise IndexError
  end.

(** [np.atleast_2d]: a 1-dimensional array becomes a single row. *)
Definition atleast_2d (x : ndarray) : ndarray :=
  match x with
  | Arr1 d => Arr2 1 (length d) d
  | Arr2 _ _ _ => x
  end.

(** [x.T] *)
Definition transpose (x : ndarray) : ndarray :=
  match x with
  | Arr1 _ => x
  | Arr2 n c d =>
      Arr2 c n
        (flat_map (fun i => map (fun r => nth (r * c + i) d (Fin 0)) (seq 0 n))
                  (seq 0 c))
  end.

(** [x[:, i]] *)
Definition col (x : ndarray) (i : nat) : result (list xreal) :=
  match x with
  | Arr1 _ => Raise IndexError
  | Arr2 n c d =>
      if (i <? c)%nat
      then Ok (map (fun r => nth (r * c + i) d (Fin 0)) (seq 0 n))
      else Raise IndexError
  end.

(** [a[i]] on a 1-dimensional array *)
Definition getitem (a : list xreal) (i : nat) : result xreal :=
  match nth_error a i with
  | Some v => Ok v
  | None => Raise IndexError
  end.

Fixpoint replace_at (a : list xreal) (i : nat) (v : xreal) : list xreal :=
  match a, i with
  | [], _ => []
  | _ :: t, O => v :: t
  | h :: t, S i' => h :: replace_at t i' v
  end.

(** [a[i] = v] on a 1-dimensional array *)
Definition setitem (a : list xreal) (i : nat) (v : xreal)
  : result (list xreal) :=
  if (i <? length a)%nat then Ok (replace_at a i v) else Raise IndexError.

(** The sum of the products of two equally long sequences. *)
Fixpoint dot (a b : list xreal) (acc : xreal) : xreal :=
  match a, b with
  | u :: a', v :: b' => dot a' b' (xadd acc (xmul u v))
  | _, _ => acc
  end.

(** [np.dot] of two 1-dimensional arrays *)
Definition np_dot (a b : list xreal) : result xreal :=
  if (length a =? length b)%nat then Ok (dot a b (Fin 0))
  else Raise ValueError.

(** [np.sum] *)
Definition np_sum (v : list xreal) : xreal := fold_left xadd v (Fin 0).

(** [v ** 2] *)
Definition square (v : list xreal) : list xreal :=
  map (fun a => xmul a a) v.

(** [a * v] for a scalar [a] *)
Definition scale (a : xreal) (v : list xreal) : list xreal :=
  map (xmul a) v.

Fixpoint zip_sub (u v : list xreal) : list xreal :=
  match u, v with
  | a :: u', b :: v' => xsub a b :: zip_sub u' v'
  | _, _ => []
  end.

(** [u - v] on 1-dimensional arrays, with numpy's broadcasting of a
    one-element operand. *)
Definition arr_sub (u v : list xreal) : result (list xreal) :=
  if (length u =? length v)%nat then Ok (zip_sub u v)
  else match u, v with
       | [a], _ => Ok (map (fun b => xsub a b) v)
       | _, [b] => Ok (map (fun a => xsub a b) u)
       | _, _ => Raise ValueError
       end.

(** [np.max] of a 1-dimensional array: an empty one has no maximum. *)
Definition np_max (v : list xreal) : result xreal :=
  match v with
  | [] => Raise ValueError
  | a :: t => Ok (fold_left xmaximum t a)
  end.

(** Python's built-in [max] of a list: the first element is kept until a
    later one compares greater. *)
Definition py_max (v : list xreal) : result xreal :=
  match v with
  | [] => Raise ValueError
  | a :: t => Ok (fold_left (fun m e => if xgtb e m then e else m) t a)
  end.

(** [range(n)] *)
Definition range (n : nat) : list nat := seq 0 n.

(** [np.zeros((n,))] *)
Definition np_zeros (n : nat) : list xreal := repeat (Fin 0) n.

(* ================================================================== *)
(** ** The program *)

Definition vec_norm (v : list xreal) : xreal := xsqrt (np_sum (square v)).

(** Lines 41-44: a 1-dimensional [x] turns both arrays into columns. *)
Definition normalize (x y : ndarray) : ndarray * ndarray :=
  if (ndim x =? 1)%nat
  then (transpose (atleast_2d x), transpose (atleast_2d y))
  else (x, y).

(** Lines 49-56: the loop that fills [alphas]. *)
Fixpoint alphas_loop (x y : ndarray) (idx : list nat) (alphas : list xreal)
  : result (list xreal) :=
  match idx with
  | [] => Ok alphas
  | i :: idx' =>
      xi <- col x i ;;
      yi <- col y i ;;
      num <- np_dot xi yi ;;
      den <- np_dot xi xi ;;
      alphas' <- setitem alphas i (xdiv num den) ;;
      alphas_loop x y idx' alphas'
  end.

(** Lines 63-65: the loop that accumulates [d_1]. *)
Fixpoint d_1_loop (x y : ndarray) (alphas : list xreal) (idx : list nat)
  (d_1 : xreal) : result xreal :=
  match idx with
  | [] => Ok d_1
  | i :: idx' =>
      a <- getitem alphas i ;;
      xi <- col x i ;;
      yi <- col y i ;;
      res <- arr_sub (scale a xi) yi ;;
      yi' <- col y i ;;
      d_1_loop x y alphas idx' (xadd d_1 (xdiv (vec_norm res) (vec_norm yi')))
  end.

(** Lines 71-72: the inner loop over [j]. *)
Fixpoint d_2b_inner (alphas : list xreal) (i : nat) (js : list nat)
  (d_2b : list xreal) : result (list xreal) :=
  match js with
  | [] => Ok d_2b
  | j :: js' =>
      ai <- getitem alphas i ;;
      aj <- getitem alphas j ;;
      d_2b_inner alphas i js' (d_2b ++ [xabs (xsub (xlog ai) (xlog aj))])
  end.

(** Lines 70-72: the outer loop over [i]. *)
Fixpoint d_2b_loop (alphas : list xreal) (n_channels : nat) (idx : list nat)
  (d_2b : list xreal) : result (list xreal) :=
  match idx with
  | [] => Ok d_2b
  | i :: idx' =>
      d_2b' <- d_2b_inner alphas i (range n_channels) d_2b ;;
      d_2b_loop alphas n_channels idx' d_2b'
  end.

(** The local variables at the [return] of line 75. *)
Record locals : Type := Locals {
  alphas : list xreal;
  d_1 : xreal;
  d_2a : xreal;
  d_2b : list xreal;
  d_2 : xreal
}.

(** Lines 36-73. *)
Definition body (x y : ndarray) : result locals :=
  if list_eq_dec Nat.eq_dec (shape x) (shape y) then
    let '(x, y) := normalize x y in
    n_channels <- shape_at x 1 ;;
    alphas <- alphas_loop x y (range n_channels) (np_zeros n_channels) ;;
    d_1 <- d_1_loop x y alphas (range n_channels) (Fin 0) ;;
    d_2a <- np_max (map (fun a => xabs (xlog a)) alphas) ;;
    d_2b <- d_2b_loop alphas n_channels (range n_channels) [] ;;
    m <- py_max d_2b ;;
    Ok (Locals alphas d_1 d_2a d_2b (xadd d_2a m))
  else Raise ShapeMismatch.

(** Line 75: the vector [[d_1, d_2]]. *)
Definition compute_waveform_distance (x y : ndarray) : result (list xreal) :=
  l <- body x y ;;
  Ok [d_1 l; d_2 l].

(* ================================================================== *)
(** ** The notions of the specification *)

(** The number of channels [C] and of samples [N] of a waveform; a
    1-dimensional waveform has one channel. *)
Definition n_channels (x : ndarray) : nat :=
  match x with
  | Arr1 _ => 1%nat
  | Arr2 _ c _ => c
  end.

Definition n_samples (x : ndarray) : nat :=
  match x with
  | Arr1 d => length d
  | Arr2 n _ _ => n
  end.

Definition column (n c : nat) (d : list xreal) (i : nat) : list xreal :=
  map (fun r => nth (r * c + i) d (Fin 0)) (seq 0 n).

(** The samples [x_i] of channel [i]. *)
Definition channel (x : ndarray) (i : nat) : list xreal :=
  match x with
  | Arr1 d => d
  | Arr2 n c d => column n c d i
  end.

(** The same data as an [(N, 1)] array. *)
Definition as_column (d : list xreal) : ndarray := Arr2 (length d) 1 d.

(** The shape after a 1-dimensional input is made a single column. *)
Definition normalized_shape (x : ndarray) : list nat :=
  match x with
  | Arr1 d => [length d; 1%nat]
  | Arr2 n c _ => [n; c]
  end.

(** [alpha_i = dot(x_i, y_i) / dot(x_i, x_i)] *)
Definition alpha_of (xi yi : list xreal) : xreal :=
  xdiv (dot xi yi (Fin 0)) (dot xi xi (Fin 0)).

Definition alphas_of (x y : ndarray) : list xreal :=
  map (fun i => alpha_of (channel x i) (channel y i)) (seq 0 (n_channels x)).

(** The summand of [d_1] for one channel. *)
Definition d1_term (xi yi : list xreal) : xreal :=
  xdiv (vec_norm (zip_sub (scale (alpha_of xi yi) xi) yi)) (vec_norm yi).

(** [|log a - log b|] *)
Definition log_gap (a b : xreal) : xreal := xabs (xsub (xlog a) (xlog b)).

(** All entries are finite numbers. *)
Definition finite (l : list xreal) : Prop := Forall is_fin l.

(** A waveform in the sense of the data model: real-valued entries. *)
Definition waveform (x : ndarray) : Prop := finite (buffer x).

(** [k * x] for a scalar [k] *)
Definition scale_array (k : xreal) (x : ndarray) : ndarray :=
  match x with
  | Arr1 d => Arr1 (scale k d)
  | Arr2 n c d => Arr2 n c (scale k d)
  end.

(** Over the reals. *)
Fixpoint Rdot (a b : list R) : R :=
  match a, b with
  | u :: a', v :: b' => u * v + Rdot a' b'
  | _, _ => 0
  end.

(** [sum((alpha * x_i - y_i)^2)] *)
Fixpoint sq_residual (alpha : R) (a b : list R) : R :=
  match a, b with
  | u :: a', v :: b' => (alpha * u - v) ^ 2 + sq_residual alpha a' b'
  | _, _ => 0
  end.

(** The value the loop of lines 63-65 leaves in [d_1]. *)
Definition d_1_of (x y : ndarray) : xreal :=
  fold_left (fun s i => xadd s (d1_term (channel x i) (channel y i)))
            (seq 0 (n_channels x)) (Fin 0).

(** The list the loops of lines 70-72 leave in [d_2b]: the gaps of all
    ordered pairs, row by row. *)
Definition log_gaps (alphas : list xreal) : list xreal :=
  flat_map (fun a => map (fun b => log_gap a b) alphas) alphas.

(** The buffer of [np.atleast_2d(d).T]. *)
Definition column_buffer (d : list xreal) : list xreal :=
  flat_map (fun i => map (fun r => nth (r * length d + i) d (Fin 0)) (seq 0 1))
           (seq 0 (length d)).

(** The real samples of channel [i] of a waveform. *)
Definition samples (x : ndarray) (i : nat) : list R := map toR (channel x i).

(** Channel [i] is not entirely zero. *)
Definition nonzero_channel (x : ndarray) (i : nat) : Prop :=
  exists v, In v (channel x i) /\ v <> Fin 0.

(** Channel [i] is entirely zero. *)
Definition zero_channel (x : ndarray) (i : nat) : Prop :=
  forall v, In v (channel x i) -> v = Fin 0.

(** A finite value that is not negative. *)
Definition nonneg (v : xreal) : Prop := exists r, v = Fin r /\ 0 <= r.

(** A finite value that is strictly positive. *)
Definition positive (v : xreal) : Prop := exists r, v = Fin r /\ 0 < r.

(** [m] is a maximum of [l]: one of its elements that none exceeds. *)
Definition is_max_of (m : xreal) (l : list xreal) : Prop :=
  In m l /\ forall v, In v l -> xgtb v m = false.

(** *** The formula of [d1], in the words of the specification *)




(** *** The terms of [d2], in the words of the specification *)

(** [alpha_i] *)
Definition alpha (x y : ndarray) (i : nat) : xreal :=
  alpha_of (channel x i) (channel y i).

(** [|log(alpha_i)|] for every channel [i] *)
Definition d2a_terms (x y : ndarray) : list xreal :=
  map (fun i => xabs (xlog (alpha x y i))) (seq 0 (n_channels x)).

(** [|log(alpha_i) - log(alpha_j)|] for every ordered pair [(i, j)],
    the pairs [(i, i)] among them *)
Definition d2b_terms (x y : ndarray) : list xreal :=
  map (fun p => xabs (xsub (xlog (alpha x y (fst p))) (xlog (alpha x y (snd p)))))
      (list_prod (seq 0 (n_channels x)) (seq 0 (n_channels x))).


(** NaN, plus infinity or a number that is not negative. *)
Definition never_negative (v : xreal) : Prop :=
  v = NaN \/ v = PInf \/ nonneg v.

(* ================================================================== *)
(** ** The same lines on binary64 numbers *)

(** Lines 20-21 and 36-65 once more, on IEEE binary64 values with their
    rounding, overflow and underflow: the arrays, the scaling factors and
    [d_1].  The standard library has no binary64 logarithm, so [d_2] is
    left to the embedding above.  Sums run in index order, which is numpy's
    order for arrays of fewer than eight entries. *)
Module F64.

Import PrimFloat.
Local Open Scope float_scope.

Inductive ndarray : Type :=
| Arr1 (data : list float)
| Arr2 (n c : nat) (data : list float).

Definition shape (x : ndarray) : list nat :=
  match x with
  | Arr1 d => [length d]
  | Arr2 n c _ => [n; c]
  end.

Definition ndim (x : ndarray) : nat := length (shape x).

Definition shape_at (x : ndarray) (k : nat) : result nat :=
  match nth_error (shape x) k with
  | Some d => Ok d
  | None => Raise IndexError
  end.

Definition atleast_2d (x : ndarray) : ndarray :=
  match x with
  | Arr1 d => Arr2 1 (length d) d
  | Arr2 _ _ _ => x
  end.

Definition transpose (x : ndarray) : ndarray :=
  match x with
  | Arr1 _ => x
  | Arr2 n c d =>
      Arr2 c n
        (flat_map (fun i => map (fun r => nth (r * c + i) d 0) (seq 0 n))
                  (seq 0 c))
  end.

Definition col (x : ndarray) (i : nat) : result (list float) :=
  match x with
  | Arr1 _ => Raise IndexError
  | Arr2 n c d =>
      if (i <? c)%nat
      then Ok (map (fun r => nth (r * c + i) d 0) (seq 0 n))
      else Raise IndexError
  end.

Definition getitem (a : list float) (i : nat) : result float :=
  match nth_error a i with
  | Some v => Ok v
  | None => Raise IndexError
  end.

Fixpoint replace_at (a : list float) (i : nat) (v : float) : list float :=
  match a, i with
  | [], _ => []
  | _ :: t, O => v :: t
  | h :: t, S i' => h :: replace_at t i' v
  end.

Definition setitem (a : list float) (i : nat) (v : float)
  : result (list float) :=
  if (i <? length a)%nat then Ok (replace_at a i v) else Raise IndexError.

Fixpoint dot (a b : list float) (acc : float) : float :=
  match a, b with
  | u :: a', v :: b' => dot a' b' (acc + u * v)
  | _, _ => acc
  end.

Definition np_dot (a b : list float) : result float :=
  if (length a =? length b)%nat then Ok (dot a b 0) else Raise ValueError.

Definition np_sum (v : list float) : float := fold_left add v 0.

Definition square (v : list float) : list float := map (fun a => a * a) v.

Definition scale (a : float) (v : list float) : list float := map (mul a) v.

Fixpoint zip_sub (u v : list float) : list float :=
  match u, v with
  | a :: u', b :: v' => (a - b) :: zip_sub u' v'
  | _, _ => []
  end.

Definition arr_sub (u v : list float) : result (list float) :=
  if (length u =? length v)%nat then Ok (zip_sub u v)
  else match u, v with
       | [a], _ => Ok (map (fun b => a - b) v)
       | _, [b] => Ok (map (fun a => a - b) u)
       | _, _ => Raise ValueError
       end.

Definition np_zeros (n : nat) : list float := repeat 0 n.

Definition vec_norm (v : list float) : float := sqrt (np_sum (square v)).

Definition normalize (x y : ndarray) : ndarray * ndarray :=
  if (ndim x =? 1)%nat
  then (transpose (atleast_2d x), transpose (atleast_2d y))
  else (x, y).

Fixpoint alphas_loop (x y : ndarray) (idx : list nat) (alphas : list float)
  : result (list float) :=
  match idx with
  | [] => Ok alphas
  | i :: idx' =>
      xi <- col x i ;;
      yi <- col y i ;;
      num <- np_dot xi yi ;;
      den <- np_dot xi xi ;;
      alphas' <- setitem alphas i (num / den) ;;
      alphas_loop x y idx' alphas'
  end.

Fixpoint d_1_loop (x y : ndarray) (alphas : list float) (idx : list nat)
  (d_1 : float) : result float :=
  match idx with
  | [] => Ok d_1
  | i :: idx' =>
      a <- getitem alphas i ;;
      xi <- col x i ;;
      yi <- col y i ;;
      res <- arr_sub (scale a xi) yi ;;
      yi' <- col y i ;;
      d_1_loop x y alphas idx' (d_1 + vec_norm res / vec_norm yi')
  end.

(** Lines 36-65: [alphas] and [d_1] as line 65 leaves them. *)
Definition body (x y : ndarray) : result (list float * float) :=
  if list_eq_dec Nat.eq_dec (shape x) (shape y) then
    let '(x, y) := normalize x y in
    n_channels <- shape_at x 1 ;;
    alphas <- alphas_loop x y (range n_channels) (np_zeros n_channels) ;;
    d_1 <- d_1_loop x y alphas (range n_channels) 0 ;;
    Ok (alphas, d_1)
  else Raise ShapeMismatch.

(** [k * x] for a scalar [k] *)
Definition scale_array (k : float) (x : ndarray) : ndarray :=
  match x with
  | Arr1 d => Arr1 (scale k d)
  | Arr2 n c d => Arr2 n c (scale k d)
  end.

(** The real number a finite binary64 value stands for. *)
Definition B2R (f : float) : R :=
  match FloatOps.Prim2SF f with
  | SpecFloat.S754_finite s m e =>
      let n := IZR (if s then Z.neg m else Z.pos m) in
      match e with
      | Z0 => n
      | Z.pos p => (n * IZR (Z.pow_pos 2 p))%R
      | Z.neg p => (n / IZR (Z.pow_pos 2 p))%R
      end
  | _ => 0%R
  end.

End F64.

(* ================================================================== *)
(** ** Arithmetic of the extended reals *)

Lemma xadd_comm (a b : xreal) : xadd a b = xadd b a.
Proof. destruct a, b; simpl; try reflexivity; f_equal; lra. Qed.


Lemma xadd_nan_l (a : xreal) : xadd NaN a = NaN.
Proof. reflexivity. Qed.

Lemma xadd_nan_r (a : xreal) : xadd a NaN = NaN.
Proof. destruct a; reflexivity. Qed.


Lemma xmul_nan_l (a : xreal) : xmul NaN a = NaN.
Proof. reflexivity. Qed.

Lemma xmul_comm (a b : xreal) : xmul a b = xmul b a.
Proof. destruct a, b; simpl; try reflexivity; f_equal; lra. Qed.

Lemma xsub_nan_l (a : xreal) : xsub NaN a = NaN.
Proof. reflexivity. Qed.

Lemma xsub_nan_r (a : xreal) : xsub a NaN = NaN.
Proof. destruct a; reflexivity. Qed.

Lemma xsub_fin (r s : R) : xsub (Fin r) (Fin s) = Fin (r - s).
Proof. unfold xsub; simpl; f_equal; lra. Qed.

Lemma xdiv_nan_l (a : xreal) : xdiv NaN a = NaN.
Proof. reflexivity. Qed.

Lemma xdiv_nan_r (a : xreal) : xdiv a NaN = NaN.
Proof. destruct a; reflexivity. Qed.

Lemma fin_div_nonzero (r s : R) : s <> 0 -> fin_div r s = Fin (r / s).
Proof. intros H; unfold fin_div; destruct (Req_dec_T s 0); [contradiction | reflexivity]. Qed.

Lemma fin_div_0_0 : fin_div 0 0 = NaN.
Proof.
  unfold fin_div; destruct (Req_dec_T 0 0) as [_ | H]; [| lra].
  destruct (total_order_T 0 0) as [[H | H] | H]; try lra; reflexivity.
Qed.

Lemma xsqrt_fin (r : R) : 0 <= r -> xsqrt (Fin r) = Fin (sqrt r).
Proof. intros H; simpl; destruct (Rlt_dec r 0); [lra | reflexivity]. Qed.

Lemma xlog_pos (r : R) : 0 < r -> xlog (Fin r) = Fin (ln r).
Proof.
  intros H; simpl; destruct (total_order_T r 0) as [[H' | H'] | H']; try lra; reflexivity.
Qed.

Lemma xlog_zero : xlog (Fin 0) = NInf.
Proof.
  simpl; destruct (total_order_T 0 0) as [[H' | H'] | H']; try lra; reflexivity.
Qed.

Lemma xlog_neg (r : R) : r < 0 -> xlog (Fin r) = NaN.
Proof.
  intros H; simpl; destruct (total_order_T r 0) as [[H' | H'] | H']; try lra; reflexivity.
Qed.

Lemma xgtb_fin (r s : R) : xgtb (Fin r) (Fin s) = true <-> s < r.
Proof. simpl; destruct (Rlt_dec s r); split; intros; try lra; try discriminate; auto. Qed.

Lemma xgtb_fin_false (r s : R) : xgtb (Fin r) (Fin s) = false <-> r <= s.
Proof. simpl; destruct (Rlt_dec s r); split; intros; try lra; try discriminate; auto. Qed.

Lemma xgtb_nan_l (a : xreal) : xgtb NaN a = false.
Proof. reflexivity. Qed.

Lemma xgtb_nan_r (a : xreal) : xgtb a NaN = false.
Proof. destruct a; reflexivity. Qed.

Lemma xgtb_irrefl (a : xreal) : xgtb a a = false.
Proof. destruct a; simpl; try reflexivity. destruct (Rlt_dec r r); [lra | reflexivity]. Qed.

Lemma xgtb_trans (a b c : xreal) :
  xgtb a b = true -> xgtb b c = true -> xgtb a c = true.
Proof.
  destruct a, b, c; simpl; try discriminate; try reflexivity.
  destruct (Rlt_dec r0 r), (Rlt_dec r1 r0), (Rlt_dec r1 r);
    try discriminate; try reflexivity; lra.
Qed.

(** Without NaN the order is total: what is not greater is below. *)
Lemma xgtb_false_trans (a b c : xreal) :
  is_nan b = false ->
  xgtb a b = false -> xgtb b c = false -> xgtb a c = false.
Proof.
  destruct a, b, c; simpl; try discriminate; try reflexivity.
  intros _.
  destruct (Rlt_dec r0 r), (Rlt_dec r1 r0), (Rlt_dec r1 r);
    try discriminate; try reflexivity; lra.
Qed.

(* ================================================================== *)
(** ** Running the program *)

Lemma column_length (n c : nat) (d : list xreal) (i : nat) :
  length (column n c d i) = n.
Proof. unfold column; now rewrite length_map, length_seq. Qed.

Lemma col_Arr2 (n c : nat) (d : list xreal) (i : nat) :
  (i < c)%nat -> col (Arr2 n c d) i = Ok (column n c d i).
Proof.
  intros H; unfold col; destruct (Nat.ltb_spec i c); [reflexivity | lia].
Qed.

Lemma np_dot_same_length (a b : list xreal) :
  length a = length b -> np_dot a b = Ok (dot a b (Fin 0)).
Proof. intros H; unfold np_dot; now rewrite H, Nat.eqb_refl. Qed.

Lemma arr_sub_same_length (u v : list xreal) :
  length u = length v -> arr_sub u v = Ok (zip_sub u v).
Proof. intros H; unfold arr_sub; now rewrite H, Nat.eqb_refl. Qed.

Lemma scale_length (a : xreal) (v : list xreal) : length (scale a v) = length v.
Proof. apply length_map. Qed.

Lemma replace_at_app (pre t : list xreal) (h v : xreal) :
  replace_at (pre ++ h :: t) (length pre) v = pre ++ v :: t.
Proof. induction pre as [| p pre IH]; simpl; [reflexivity | now rewrite IH]. Qed.

Lemma getitem_map_seq (f : nat -> xreal) (c i : nat) :
  (i < c)%nat -> getitem (map f (seq 0 c)) i = Ok (f i).
Proof.
  intros H; unfold getitem.
  rewrite nth_error_map.
  rewrite (nth_error_nth' (seq 0 c) 0%nat) by now rewrite length_seq.
  now rewrite seq_nth.
Qed.

Section Run2D.

Variables (n c : nat) (dx dy : list xreal).

Let X := Arr2 n c dx.
Let Y := Arr2 n c dy.
Let A (i : nat) : xreal := alpha_of (column n c dx i) (column n c dy i).
Let T (i : nat) : xreal := d1_term (column n c dx i) (column n c dy i).

Lemma alphas_loop_run (m : nat) :
  forall (k : nat) (pre : list xreal),
    (k + m = c)%nat -> length pre = k ->
    alphas_loop X Y (seq k m) (pre ++ repeat (Fin 0) m)
    = Ok (pre ++ map A (seq k m)).
Proof.
  induction m as [| m IH]; intros k pre Hk Hpre; [reflexivity |].
  subst k.
  cbn [seq alphas_loop repeat map].
  unfold X, Y at 1 2.
  rewrite !col_Arr2 by lia. cbn [bind].
  rewrite !np_dot_same_length by now rewrite !column_length.
  cbn [bind]. unfold setitem.
  rewrite length_app. cbn [length].
  destruct (Nat.ltb_spec (length pre)
              (length pre + S (length (repeat (Fin 0) m)))) as [_ | H];
    [| lia].
  cbn [bind]. rewrite replace_at_app.
  specialize (IH (S (length pre)) (pre ++ [A (length pre)])).
  rewrite <- !app_assoc in IH. cbn [app] in IH.
  apply IH; [lia |].
  rewrite length_app; simpl; lia.
Qed.

Lemma alphas_loop_range :
  alphas_loop X Y (range c) (np_zeros c) = Ok (map A (seq 0 c)).
Proof. exact (alphas_loop_run c 0 [] (Nat.add_0_l c) eq_refl). Qed.

Lemma d_1_loop_run (idx : list nat) :
  forall acc : xreal,
    Forall (fun i => (i < c)%nat) idx ->
    d_1_loop X Y (map A (seq 0 c)) idx acc
    = Ok (fold_left (fun s i => xadd s (T i)) idx acc).
Proof.
  induction idx as [| i idx IH]; intros acc Hidx; [reflexivity |].
  inversion Hidx as [| ? ? Hi Hrest]; subst.
  cbn [d_1_loop fold_left].
  rewrite getitem_map_seq by assumption. cbn [bind].
  unfold X, Y at 1 2 3.
  rewrite !col_Arr2 by assumption. cbn [bind].
  rewrite arr_sub_same_length by now rewrite scale_length, !column_length.
  cbn [bind]. now rewrite IH.
Qed.

Lemma d_2b_inner_run (i : nat) (js : list nat) :
  forall acc : list xreal,
    (i < c)%nat -> Forall (fun j => (j < c)%nat) js ->
    d_2b_inner (map A (seq 0 c)) i js acc
    = Ok (acc ++ map (fun j => log_gap (A i) (A j)) js).
Proof.
  induction js as [| j js IH]; intros acc Hi Hjs.
  - simpl. now rewrite app_nil_r.
  - inversion Hjs as [| ? ? Hj Hrest]; subst.
    cbn [d_2b_inner map].
    rewrite !getitem_map_seq by assumption. cbn [bind].
    rewrite IH by assumption. now rewrite <- app_assoc.
Qed.

Lemma d_2b_loop_run (idx : list nat) :
  forall acc : list xreal,
    Forall (fun i => (i < c)%nat) idx ->
    d_2b_loop (map A (seq 0 c)) c idx acc
    = Ok (acc ++ flat_map (fun i => map (fun j => log_gap (A i) (A j)) (seq 0 c)) idx).
Proof.
  induction idx as [| i idx IH]; intros acc Hidx.
  - simpl. now rewrite app_nil_r.
  - inversion Hidx as [| ? ? Hi Hrest]; subst.
    cbn [d_2b_loop flat_map]. unfold range.
    rewrite d_2b_inner_run; [| assumption |].
    + cbn [bind]. rewrite IH by assumption. now rewrite <- app_assoc.
    + apply Forall_forall. intros j Hj. apply in_seq in Hj. lia.
Qed.

End Run2D.

Lemma map_nth_seq_id (d : list xreal) (k : nat) :
  map (fun i => nth (k + i) d (Fin 0)) (seq 0 (length d - k)) = skipn k d.
Proof.
  revert k. induction d as [| a d IH]; intros k.
  - destruct k; reflexivity.
  - destruct k as [| k].
    + cbn [length Nat.sub seq map skipn Nat.add nth]. f_equal.
      rewrite <- seq_shift, map_map.
      specialize (IH 0%nat). rewrite Nat.sub_0_r in IH. exact IH.
    + cbn [length Nat.sub skipn]. rewrite <- IH.
      apply map_ext. intros i. reflexivity.
Qed.

Lemma column_buffer_id (d : list xreal) : column_buffer d = d.
Proof.
  unfold column_buffer.
  rewrite flat_map_concat_map.
  cbn [seq map].
  rewrite <- flat_map_concat_map.
  transitivity (map (fun i => nth (0 + i) d (Fin 0)) (seq 0 (length d - 0))).
  - rewrite Nat.sub_0_r.
    induction (seq 0 (length d)) as [| i l IH]; [reflexivity |].
    cbn [flat_map map app]. now rewrite IH.
  - apply (map_nth_seq_id d 0).
Qed.

Lemma column_single (d : list xreal) : column (length d) 1 d 0 = d.
Proof.
  unfold column.
  transitivity (map (fun i => nth (0 + i) d (Fin 0)) (seq 0 (length d - 0))).
  - rewrite Nat.sub_0_r. apply map_ext. intros r. f_equal. simpl. lia.
  - apply (map_nth_seq_id d 0).
Qed.

Lemma log_gaps_map_seq (f : nat -> xreal) (c : nat) :
  flat_map (fun i => map (fun j => log_gap (f i) (f j)) (seq 0 c)) (seq 0 c)
  = log_gaps (map f (seq 0 c)).
Proof.
  unfold log_gaps.
  assert (H : forall l l' : list nat,
             flat_map (fun i => map (fun j => log_gap (f i) (f j)) l') l
             = flat_map (fun a => map (fun b => log_gap a b) (map f l')) (map f l)).
  { intros l l'. induction l as [| i l IH]; [reflexivity |].
    cbn [flat_map map]. rewrite IH. f_equal. now rewrite map_map. }
  apply H.
Qed.

Lemma fold_left_ext_in {A B : Type} (f g : A -> B -> A) (l : list B) :
  forall a : A,
    (forall s i, In i l -> f s i = g s i) ->
    fold_left f l a = fold_left g l a.
Proof.
  induction l as [| b l IH]; intros a H; [reflexivity |].
  cbn [fold_left]. rewrite H by now left.
  apply IH. intros s i Hi. apply H. now right.
Qed.

(** What the body computes on equally shaped arrays. *)
Lemma body_run (x y : ndarray) :
  shape x = shape y ->
  body x y
  = (a <- np_max (map (fun a => xabs (xlog a)) (alphas_of x y)) ;;
     m <- py_max (log_gaps (alphas_of x y)) ;;
     Ok (Locals (alphas_of x y) (d_1_of x y) a (log_gaps (alphas_of x y))
                (xadd a m))).
Proof.
  intros Hs. unfold body.
  destruct (list_eq_dec Nat.eq_dec (shape x) (shape y)) as [_ | H];
    [| contradiction].
  assert (Hrange : forall c, Forall (fun i => (i < c)%nat) (range c)).
  { intros c. apply Forall_forall. intros i Hi. apply in_seq in Hi. lia. }
  destruct x as [a | n c dx], y as [b | n' c' dy]; try discriminate Hs.
  - injection Hs as Hlen.
    cbn [normalize ndim shape length Nat.eqb atleast_2d transpose].
    fold (column_buffer a). fold (column_buffer b).
    cbn [shape_at shape nth_error bind].
    rewrite <- Hlen, !column_buffer_id.
    assert (Hb : column (length a) 1 b 0 = b)
      by (rewrite Hlen; apply column_single).
    rewrite alphas_loop_range. cbn [bind].
    rewrite d_1_loop_run by apply Hrange. cbn [bind].
    rewrite d_2b_loop_run by apply Hrange. cbn [app].
    rewrite log_gaps_map_seq.
    unfold alphas_of, d_1_of, range.
    cbn [n_channels seq map channel fold_left].
    rewrite column_single, Hb.
    destruct (np_max _); [| reflexivity]. cbn [bind].
    destruct (py_max _); reflexivity.
  - injection Hs as Hn Hc. subst n' c'.
    cbn [normalize ndim shape length Nat.eqb].
    cbn [shape_at shape nth_error bind].
    rewrite alphas_loop_range. cbn [bind].
    rewrite d_1_loop_run by apply Hrange. cbn [bind].
    rewrite d_2b_loop_run by apply Hrange. cbn [app].
    rewrite log_gaps_map_seq.
    unfold alphas_of, d_1_of, range. cbn [n_channels channel].
    destruct (np_max _); [| reflexivity]. cbn [bind].
    destruct (py_max _); reflexivity.
Qed.

Lemma alphas_of_length (x y : ndarray) :
  length (alphas_of x y) = n_channels x.
Proof. unfold alphas_of. now rewrite length_map, length_seq. Qed.

Lemma np_max_nonempty (v : list xreal) :
  v <> [] -> exists m, np_max v = Ok m.
Proof. destruct v as [| a t]; [contradiction | intros _; now eexists]. Qed.

Lemma py_max_nonempty (v : list xreal) :
  v <> [] -> exists m, py_max v = Ok m.
Proof. destruct v as [| a t]; [contradiction | intros _; now eexists]. Qed.

Lemma log_gaps_nonempty (alphas : list xreal) :
  alphas <> [] -> log_gaps alphas <> [].
Proof. destruct alphas as [| a t]; [contradiction | discriminate]. Qed.

Lemma alphas_of_nonempty (x y : ndarray) :
  (0 < n_channels x)%nat -> alphas_of x y <> [].
Proof.
  intros H E. apply (f_equal (@length xreal)) in E.
  rewrite alphas_of_length in E. simpl in E. lia.
Qed.

(** With at least one channel, the body runs to its end on equal shapes. *)
Lemma body_returns (x y : ndarray) :
  shape x = shape y -> (0 < n_channels x)%nat ->
  exists a m,
    np_max (map (fun a => xabs (xlog a)) (alphas_of x y)) = Ok a
    /\ py_max (log_gaps (alphas_of x y)) = Ok m
    /\ body x y
       = Ok (Locals (alphas_of x y) (d_1_of x y) a (log_gaps (alphas_of x y))
                    (xadd a m)).
Proof.
  intros Hs Hc. rewrite (body_run x y Hs).
  destruct (np_max_nonempty (map (fun a => xabs (xlog a)) (alphas_of x y)))
    as [a Ha].
  { intros E. apply map_eq_nil in E. now apply (alphas_of_nonempty x y Hc). }
  destruct (py_max_nonempty (log_gaps (alphas_of x y))) as [m Hm].
  { apply log_gaps_nonempty. now apply alphas_of_nonempty. }
  exists a, m. rewrite Ha, Hm. repeat split; reflexivity.
Qed.

Lemma compute_returns (x y : ndarray) :
  shape x = shape y -> (0 < n_channels x)%nat ->
  exists a m,
    np_max (map (fun a => xabs (xlog a)) (alphas_of x y)) = Ok a
    /\ py_max (log_gaps (alphas_of x y)) = Ok m
    /\ compute_waveform_distance x y = Ok [d_1_of x y; xadd a m].
Proof.
  intros Hs Hc.
  destruct (body_returns x y Hs Hc) as (a & m & Ha & Hm & Hb).
  exists a, m. repeat split; try assumption.
  unfold compute_waveform_distance. now rewrite Hb.
Qed.

Lemma compute_shape_mismatch (x y : ndarray) :
  shape x <> shape y -> compute_waveform_distance x y = Raise ShapeMismatch.
Proof.
  intros H. unfold compute_waveform_distance, body.
  destruct (list_eq_dec Nat.eq_dec (shape x) (shape y)); [contradiction | reflexivity].
Qed.

(** No channel at all: [np.max] of the empty [alphas] raises. *)
Lemma compute_no_channel (x y : ndarray) :
  shape x = shape y -> n_channels x = 0%nat ->
  compute_waveform_distance x y = Raise ValueError.
Proof.
  intros Hs Hc. unfold compute_waveform_distance. rewrite (body_run x y Hs).
  unfold alphas_of. rewrite Hc. reflexivity.
Qed.

(** Closed goals about concrete arrays: all entries are finite; a named
    entry of a channel is not zero. *)
Ltac finite_entries := unfold waveform, finite; simpl; repeat constructor.

Ltac nonzero_entry v :=
  exists v; split; [simpl; auto | intros E; injection E; lra].

(* ================================================================== *)
(** ** C1: the shape check *)

(** The normalised shape is the shape the code gives the array in lines
    41-44. *)
Lemma normalized_shape_normalize (x : ndarray) :
  normalized_shape x = shape (fst (normalize x x)).
Proof. destruct x; reflexivity. Qed.

(** C1, as the code has it: the shape assertion fails exactly when the
    shapes of the two arrays as they are passed differ, before a
    1-dimensional input is made a column, so it depends on no entry of
    the arrays; and on equal shapes with at least one channel the call
    raises nothing and returns a vector of two numbers. *)
Theorem C1_shape_mismatch_iff_raw_shapes_differ (x y : ndarray) :
  (compute_waveform_distance x y = Raise ShapeMismatch <-> shape x <> shape y)
  /\ (shape x = shape y -> (0 < n_channels x)%nat ->
      exists d1 d2, compute_waveform_distance x y = Ok [d1; d2]).
Proof.
  split; [split |].
  - intros Hraise Hs.
    destruct (Nat.eq_dec (n_channels x) 0) as [Hc | Hc].
    + rewrite (compute_no_channel x y Hs Hc) in Hraise. discriminate.
    + destruct (compute_returns x y Hs) as (a & m & _ & _ & Hr); [lia |].
      rewrite Hr in Hraise. discriminate.
  - apply compute_shape_mismatch.
  - intros Hs Hc.
    destruct (compute_returns x y Hs Hc) as (a & m & _ & _ & Hr).
    now exists (d_1_of x y), (xadd a m).
Qed.

Lemma C1_shape_mismatch_iff_raw_shapes_differ_witness :
  exists d1 d2,
    compute_waveform_distance (Arr2 1 2 [Fin 1; Fin 2]) (Arr2 1 2 [Fin 3; Fin 4])
    = Ok [d1; d2].
Proof.
  apply (proj2 (C1_shape_mismatch_iff_raw_shapes_differ
                  (Arr2 1 2 [Fin 1; Fin 2]) (Arr2 1 2 [Fin 3; Fin 4]))).
  - reflexivity.
  - simpl; lia.
Defined.

(** C1 as stated fails: a 1-dimensional array of three samples and the
    (3, 1) array of the same samples have the same shape once the first
    is made a column, and the call still fails the shape assertion. *)
Lemma C1_counterexample_1d_against_column :
  normalized_shape (Arr1 [Fin 1; Fin 2; Fin 3])
  = normalized_shape (Arr2 3 1 [Fin 1; Fin 2; Fin 3])
  /\ compute_waveform_distance (Arr1 [Fin 1; Fin 2; Fin 3])
                               (Arr2 3 1 [Fin 1; Fin 2; Fin 3])
     = Raise ShapeMismatch.
Proof. split; reflexivity. Qed.

(* ================================================================== *)
(** ** Finite data: the arithmetic is that of the reals *)

Lemma finite_map_Fin (l : list xreal) : finite l -> l = map Fin (map toR l).
Proof.
  induction 1 as [| a l Ha _ IH]; [reflexivity |].
  destruct a; try contradiction. simpl. now rewrite <- IH.
Qed.

Lemma finite_column (n c : nat) (d : list xreal) (i : nat) :
  finite d -> finite (column n c d i).
Proof.
  intros Hd. unfold column, finite. apply Forall_forall. intros v Hv.
  apply in_map_iff in Hv. destruct Hv as (r & <- & _).
  destruct (nth_in_or_default (r * c + i) d (Fin 0)) as [Hin | ->];
    [| exact I].
  unfold finite in Hd. rewrite Forall_forall in Hd. now apply Hd.
Qed.

Lemma finite_channel (x : ndarray) (i : nat) :
  waveform x -> finite (channel x i).
Proof.
  destruct x as [d | n c d]; unfold waveform; simpl; intros H;
    [exact H | now apply finite_column].
Qed.

Lemma channel_samples (x : ndarray) (i : nat) :
  waveform x -> channel x i = map Fin (samples x i).
Proof. intros H. apply finite_map_Fin. now apply finite_channel. Qed.

Lemma channel_length (x : ndarray) (i : nat) :
  length (channel x i) = n_samples x.
Proof. destruct x; simpl; [reflexivity | apply column_length]. Qed.

Lemma samples_length (x : ndarray) (i : nat) :
  length (samples x i) = n_samples x.
Proof. unfold samples. now rewrite length_map, channel_length. Qed.

Lemma same_shape_samples (x y : ndarray) :
  shape x = shape y -> n_samples x = n_samples y /\ n_channels x = n_channels y.
Proof.
  destruct x, y; simpl; intros H; try discriminate; injection H; auto.
Qed.

Lemma dot_Fin (a b : list R) :
  forall s : R, dot (map Fin a) (map Fin b) (Fin s) = Fin (s + Rdot a b).
Proof.
  revert b. induction a as [| u a IH]; intros b s.
  - simpl. f_equal. lra.
  - destruct b as [| v b]; simpl.
    + f_equal. lra.
    + rewrite IH. f_equal. lra.
Qed.

Lemma dot_Fin_0 (a b : list R) :
  dot (map Fin a) (map Fin b) (Fin 0) = Fin (Rdot a b).
Proof. rewrite dot_Fin. f_equal. lra. Qed.

Lemma alpha_of_Fin (a b : list R) :
  alpha_of (map Fin a) (map Fin b) = fin_div (Rdot a b) (Rdot a a).
Proof. unfold alpha_of. now rewrite !dot_Fin_0. Qed.

Lemma sum_sq_residual_Fin (alpha : R) (a b : list R) :
  forall s : R,
    fold_left xadd (square (zip_sub (scale (Fin alpha) (map Fin a)) (map Fin b)))
              (Fin s)
    = Fin (s + sq_residual alpha a b).
Proof.
  revert b. induction a as [| u a IH]; intros b s.
  - simpl. f_equal. lra.
  - destruct b as [| v b].
    + simpl. f_equal. lra.
    + unfold scale, square in *.
      cbn [map zip_sub fold_left xmul]. rewrite xsub_fin.
      cbn [xmul xadd]. rewrite IH. f_equal. simpl. ring.
Qed.

Lemma sum_sq_Fin (b : list R) :
  forall s : R,
    fold_left xadd (square (map Fin b)) (Fin s) = Fin (s + Rdot b b).
Proof.
  induction b as [| v b IH]; intros s; simpl.
  - f_equal. lra.
  - rewrite IH. f_equal. lra.
Qed.

Lemma Rdot_self_nonneg (a : list R) : 0 <= Rdot a a.
Proof.
  induction a as [| u a IH]; cbn [Rdot]; [lra |].
  pose proof (Rle_0_sqr u) as Hu. unfold Rsqr in Hu. lra.
Qed.

Lemma sq_residual_nonneg (alpha : R) (a b : list R) :
  0 <= sq_residual alpha a b.
Proof.
  revert b. induction a as [| u a IH]; intros b; [simpl; lra |].
  destruct b as [| v b]; cbn [sq_residual]; [lra |].
  specialize (IH b). pose proof (pow2_ge_0 (alpha * u - v)). lra.
Qed.

Lemma Rdot_self_pos (a : list R) :
  (exists u, In u a /\ u <> 0) -> 0 < Rdot a a.
Proof.
  intros (u & Hin & Hu). induction a as [| w a IH]; [contradiction |].
  cbn [Rdot]. pose proof (Rdot_self_nonneg a) as Ha.
  pose proof (Rle_0_sqr w) as Hw. unfold Rsqr in Hw.
  destruct Hin as [-> | Hin].
  - assert (0 < u * u) by (apply Rsqr_pos_lt in Hu; exact Hu). lra.
  - specialize (IH Hin). lra.
Qed.

Lemma Rdot_self_zero (a : list R) :
  Rdot a a = 0 -> forall u, In u a -> u = 0.
Proof.
  induction a as [| w a IH]; intros H u Hin; [contradiction |].
  cbn [Rdot] in H. pose proof (Rdot_self_nonneg a) as Ha.
  pose proof (Rle_0_sqr w) as Hw. unfold Rsqr in Hw.
  destruct Hin as [<- | Hin].
  - apply Rsqr_0_uniq. unfold Rsqr. lra.
  - apply IH; [lra | assumption].
Qed.

Lemma vec_norm_residual_Fin (alpha : R) (a b : list R) :
  vec_norm (zip_sub (scale (Fin alpha) (map Fin a)) (map Fin b))
  = Fin (sqrt (sq_residual alpha a b)).
Proof.
  unfold vec_norm, np_sum. rewrite sum_sq_residual_Fin, Rplus_0_l.
  apply xsqrt_fin, sq_residual_nonneg.
Qed.

Lemma vec_norm_Fin (b : list R) :
  vec_norm (map Fin b) = Fin (sqrt (Rdot b b)).
Proof.
  unfold vec_norm, np_sum. rewrite sum_sq_Fin, Rplus_0_l.
  apply xsqrt_fin, Rdot_self_nonneg.
Qed.

Lemma nonzero_channel_samples (x : ndarray) (i : nat) :
  waveform x -> nonzero_channel x i -> 0 < Rdot (samples x i) (samples x i).
Proof.
  intros Hw (v & Hin & Hv). apply Rdot_self_pos.
  pose proof (finite_channel x i Hw) as Hf.
  unfold finite in Hf. rewrite Forall_forall in Hf.
  specialize (Hf v Hin). destruct v as [r | | |]; try contradiction.
  exists r. split.
  - unfold samples. change r with (toR (Fin r)). now apply in_map.
  - intros ->. now apply Hv.
Qed.

(** The quadratic in [alpha] that the scaling factor minimises. *)
Lemma sq_residual_expand (alpha : R) (a b : list R) :
  length a = length b ->
  sq_residual alpha a b
  = alpha * alpha * Rdot a a - 2 * alpha * Rdot a b + Rdot b b.
Proof.
  revert b. induction a as [| u a IH]; intros b Hlen;
    destruct b as [| v b]; try discriminate Hlen.
  - simpl. ring.
  - simpl. rewrite IH by (simpl in Hlen; lia). ring.
Qed.

Lemma least_squares_minimum (a b : list R) (alpha : R) :
  length a = length b -> 0 < Rdot a a ->
  sq_residual (Rdot a b / Rdot a a) a b <= sq_residual alpha a b.
Proof.
  intros Hlen Hpos. rewrite !sq_residual_expand by assumption.
  generalize (Rdot b b). intros Q.
  assert (Ha0 : Rdot a b / Rdot a a * Rdot a a = Rdot a b) by (field; lra).
  revert Ha0 Hpos.
  generalize (Rdot a b / Rdot a a). generalize (Rdot a b), (Rdot a a).
  intros P D a0 Ha0 Hpos. subst P.
  assert (Hsq : 0 <= D * ((alpha - a0) * (alpha - a0))).
  { apply Rmult_le_pos; [lra |]. apply Rle_0_sqr. }
  lra.
Qed.

Lemma nth_error_alphas_of (x y : ndarray) (i : nat) :
  (i < n_channels x)%nat ->
  nth_error (alphas_of x y) i = Some (alpha_of (channel x i) (channel y i)).
Proof.
  intros Hi. unfold alphas_of.
  rewrite nth_error_map, nth_error_seq.
  destruct (Nat.ltb_spec i (n_channels x)); [reflexivity | lia].
Qed.

Lemma alpha_of_samples (x y : ndarray) (i : nat) :
  waveform x -> waveform y ->
  alpha_of (channel x i) (channel y i)
  = fin_div (Rdot (samples x i) (samples y i)) (Rdot (samples x i) (samples x i)).
Proof.
  intros Hx Hy.
  rewrite (channel_samples x i Hx), (channel_samples y i Hy).
  apply alpha_of_Fin.
Qed.

(* ================================================================== *)
(** ** C2: the scaling factors *)

(** C2, as amended: for equally shaped arrays and every channel [i], the
    entry [alphas[i]] the code computes is [dot(x_i, y_i) / dot(x_i, x_i)]
    in the arithmetic of the program; and over exact real arithmetic
    (no rounding, overflow or underflow), on real-valued waveforms with
    [dot(x_i, x_i) > 0], it is the real number that makes
    [sum((alpha * x_i - y_i)^2)] least among all real [alpha].  On
    binary64 numbers the stored quotient is rounded and need not be the
    minimiser, as the runs at the end of the file show. *)
Theorem C2_alpha_is_least_squares_factor (x y : ndarray) (i : nat) :
  shape x = shape y -> (i < n_channels x)%nat ->
  exists l : locals,
    body x y = Ok l
    /\ nth_error (alphas l) i
       = Some (xdiv (dot (channel x i) (channel y i) (Fin 0))
                    (dot (channel x i) (channel x i) (Fin 0)))
    /\ (waveform x -> waveform y ->
        0 < Rdot (samples x i) (samples x i) ->
        let a := Rdot (samples x i) (samples y i)
                 / Rdot (samples x i) (samples x i) in
        nth_error (alphas l) i = Some (Fin a)
        /\ forall alpha : R,
            sq_residual a (samples x i) (samples y i)
            <= sq_residual alpha (samples x i) (samples y i)).
Proof.
  intros Hs Hi.
  destruct (body_returns x y Hs) as (a & m & _ & _ & Hb); [lia |].
  eexists. split; [exact Hb |]. cbn [alphas].
  split; [now apply nth_error_alphas_of |].
  intros Hx Hy Hpos. split.
  - rewrite nth_error_alphas_of by assumption.
    rewrite alpha_of_samples by assumption.
    rewrite fin_div_nonzero by lra. reflexivity.
  - intros alpha. apply least_squares_minimum; [| assumption].
    rewrite !samples_length. now apply same_shape_samples.
Qed.

Lemma C2_alpha_is_least_squares_factor_witness :
  exists l : locals,
    body (Arr2 2 2 [Fin 1; Fin 2; Fin 3; Fin 4])
         (Arr2 2 2 [Fin 2; Fin 1; Fin 0; Fin 5]) = Ok l
    /\ nth_error (alphas l) 1 = Some (Fin ((2 * 1 + (4 * 5 + 0)) / (2 * 2 + (4 * 4 + 0))))
    /\ forall alpha : R,
        sq_residual ((2 * 1 + (4 * 5 + 0)) / (2 * 2 + (4 * 4 + 0))) [2; 4] [1; 5]
        <= sq_residual alpha [2; 4] [1; 5].
Proof.
  destruct (C2_alpha_is_least_squares_factor
              (Arr2 2 2 [Fin 1; Fin 2; Fin 3; Fin 4])
              (Arr2 2 2 [Fin 2; Fin 1; Fin 0; Fin 5]) 1%nat)
    as (l & Hb & _ & H).
  - reflexivity.
  - simpl; lia.
  - exists l. split; [exact Hb |].
    apply H.
    + finite_entries.
    + finite_entries.
    + simpl; lra.
Defined.

(* ================================================================== *)
(** ** C3: the shape distance *)


Lemma fold_left_xadd_map {A : Type} (f : A -> xreal) (l : list A) :
  forall s : xreal,
    fold_left (fun s i => xadd s (f i)) l s = fold_left xadd (map f l) s.
Proof. induction l as [| i l IH]; intros s; [reflexivity | apply IH]. Qed.






(* ================================================================== *)
(** ** C4: the scale distance *)

Lemma xgtb_asym (a b : xreal) : xgtb a b = true -> xgtb b a = false.
Proof.
  destruct a, b; simpl; try discriminate; try reflexivity.
  destruct (Rlt_dec r0 r), (Rlt_dec r r0); try discriminate; try reflexivity; lra.
Qed.

Lemma xgtb_antisym (a b : xreal) :
  is_nan a = false -> is_nan b = false ->
  xgtb a b = false -> xgtb b a = false -> a = b.
Proof.
  destruct a, b; simpl; try discriminate; try reflexivity.
  intros _ _. destruct (Rlt_dec r0 r), (Rlt_dec r r0); try discriminate.
  intros _ _. f_equal. lra.
Qed.

Section MaxFold.

(** One step of a running maximum: it keeps one of the two values, which
    neither of them exceeds, and NaN once held is kept. *)
Variable step : xreal -> xreal -> xreal.
Hypothesis step_choice : forall m e, step m e = m \/ step m e = e.
Hypothesis step_left : forall m e, xgtb m (step m e) = false.
Hypothesis step_right : forall m e, xgtb e (step m e) = false.
Hypothesis step_nan : forall e, step NaN e = NaN.

Lemma fold_step_nan (t : list xreal) : fold_left step t NaN = NaN.
Proof. induction t as [| e t IH]; [reflexivity |]. simpl. now rewrite step_nan. Qed.

Lemma fold_step_is_max (t : list xreal) :
  forall a : xreal, is_max_of (fold_left step t a) (a :: t).
Proof.
  induction t as [| e t IH]; intros a.
  - split; [now left |]. intros v [<- | []]. apply xgtb_irrefl.
  - cbn [fold_left]. destruct (IH (step a e)) as [Hin Hmax]. split.
    + destruct Hin as [Hin | Hin]; [| now right; right].
      rewrite <- Hin. destruct (step_choice a e) as [-> | ->];
        [now left | now right; left].
    + assert (Hs : forall v, xgtb v (step a e) = false ->
                        xgtb v (fold_left step t (step a e)) = false).
      { intros v Hv. destruct (is_nan (step a e)) eqn:Hnan.
        - destruct (step a e); try discriminate.
          rewrite fold_step_nan. apply xgtb_nan_r.
        - apply (xgtb_false_trans v (step a e)); try assumption.
          apply Hmax. now left. }
      intros v [<- | [<- | Hv]].
      * apply Hs, step_left.
      * apply Hs, step_right.
      * apply Hmax. now right.
Qed.

End MaxFold.

Lemma np_max_is_max (v : list xreal) (m : xreal) :
  np_max v = Ok m -> is_max_of m v.
Proof.
  destruct v as [| a t]; [discriminate |]. intros [= <-].
  apply fold_step_is_max.
  - intros x e. destruct x, e; simpl; auto;
      destruct (Rlt_dec r r0); auto.
  - intros x e. unfold xmaximum.
    destruct x, e; try reflexivity;
      match goal with
      | |- xgtb ?a (if xgtb ?b ?a then _ else _) = false =>
          destruct (xgtb b a) eqn:E; [now apply xgtb_asym | apply xgtb_irrefl]
      end.
  - intros x e. unfold xmaximum.
    destruct x, e; try reflexivity;
      match goal with
      | |- xgtb ?b (if xgtb ?b ?a then _ else _) = false =>
          destruct (xgtb b a) eqn:E; [apply xgtb_irrefl | exact E]
      end.
  - reflexivity.
Qed.

Lemma py_max_is_max (v : list xreal) (m : xreal) :
  py_max v = Ok m -> is_max_of m v.
Proof.
  destruct v as [| a t]; [discriminate |]. intros [= <-].
  apply (fold_step_is_max (fun m e => if xgtb e m then e else m)).
  - intros x e. destruct (xgtb e x); auto.
  - intros x e. destruct (xgtb e x) eqn:E; [now apply xgtb_asym | apply xgtb_irrefl].
  - intros x e. destruct (xgtb e x) eqn:E; [apply xgtb_irrefl | exact E].
  - intros e. now rewrite xgtb_nan_r.
Qed.

(** With a NaN among the terms the two maxima part ways: [np.max] is NaN,
    Python's [max] is NaN only when the NaN comes first. *)
Example max_of_terms_with_nan :
  np_max [Fin 0; PInf; NaN] = Ok NaN
  /\ py_max [Fin 0; PInf; NaN] = Ok PInf
  /\ py_max [NaN; PInf; Fin 0] = Ok NaN.
Proof. repeat split; reflexivity. Qed.

(** Where no term is NaN the maximum is the usual one, and unique. *)
Lemma is_max_of_unique (l : list xreal) (m m' : xreal) :
  Forall (fun v => is_nan v = false) l ->
  is_max_of m l -> is_max_of m' l -> m = m'.
Proof.
  intros Hl [Hin Hmax] [Hin' Hmax']. rewrite Forall_forall in Hl.
  apply xgtb_antisym; auto.
Qed.

Lemma flat_map_list_prod {A B : Type} (g : A -> A -> B) (l l' : list A) :
  flat_map (fun i => map (fun j => g i j) l') l
  = map (fun p => g (fst p) (snd p)) (list_prod l l').
Proof.
  induction l as [| i l IH]; [reflexivity |].
  cbn [flat_map list_prod]. rewrite map_app, map_map, IH. reflexivity.
Qed.

Lemma d2a_terms_alphas (x y : ndarray) :
  map (fun a => xabs (xlog a)) (alphas_of x y) = d2a_terms x y.
Proof. unfold alphas_of, d2a_terms. now rewrite map_map. Qed.

Lemma d2b_terms_log_gaps (x y : ndarray) :
  log_gaps (alphas_of x y) = d2b_terms x y.
Proof.
  unfold alphas_of, d2b_terms.
  rewrite <- log_gaps_map_seq.
  apply (flat_map_list_prod
           (fun i j => xabs (xsub (xlog (alpha x y i)) (xlog (alpha x y j))))).
Qed.

(** C4: on equally shaped arrays the second component of the result is
    [d2 = d2a + d2b], where [d2a] is a maximum over the channels [i] of
    [|log(alpha_i)|] and [d2b] a maximum over all ordered pairs [(i, j)],
    [i = j] included, of [|log(alpha_i) - log(alpha_j)|]. *)
Theorem C4_second_component_is_d2 (x y : ndarray) :
  shape x = shape y -> (0 < n_channels x)%nat ->
  exists d1 d2a d2b : xreal,
    compute_waveform_distance x y = Ok [d1; xadd d2a d2b]
    /\ is_max_of d2a (d2a_terms x y)
    /\ is_max_of d2b (d2b_terms x y).
Proof.
  intros Hs Hc.
  destruct (compute_returns x y Hs Hc) as (a & m & Ha & Hm & Hr).
  exists (d_1_of x y), a, m. split; [exact Hr |]. split.
  - rewrite <- d2a_terms_alphas. now apply np_max_is_max.
  - rewrite <- d2b_terms_log_gaps. now apply py_max_is_max.
Qed.

Lemma C4_second_component_is_d2_witness :
  exists d1 d2a d2b : xreal,
    compute_waveform_distance (Arr2 2 2 [Fin 1; Fin 2; Fin 3; Fin 4])
                              (Arr2 2 2 [Fin 2; Fin 1; Fin 0; Fin 5])
    = Ok [d1; xadd d2a d2b]
    /\ is_max_of d2a (d2a_terms (Arr2 2 2 [Fin 1; Fin 2; Fin 3; Fin 4])
                                (Arr2 2 2 [Fin 2; Fin 1; Fin 0; Fin 5]))
    /\ is_max_of d2b (d2b_terms (Arr2 2 2 [Fin 1; Fin 2; Fin 3; Fin 4])
                                (Arr2 2 2 [Fin 2; Fin 1; Fin 0; Fin 5])).
Proof.
  apply C4_second_component_is_d2.
  - reflexivity.
  - simpl; lia.
Defined.

(* ================================================================== *)
(** ** C5: a 1-dimensional input is a single column *)

Lemma alphas_of_Arr1 (a b : list xreal) :
  alphas_of (Arr1 a) (Arr1 b) = [alpha_of a b].
Proof. reflexivity. Qed.

Lemma alphas_of_as_column (a b : list xreal) :
  alphas_of (as_column a) (as_column b) = [alpha_of a b].
Proof.
  unfold alphas_of, as_column. cbn [n_channels seq map channel].
  now rewrite !column_single.
Qed.

Lemma d_1_of_as_column (a b : list xreal) :
  d_1_of (as_column a) (as_column b) = d_1_of (Arr1 a) (Arr1 b).
Proof.
  unfold d_1_of, as_column. cbn [n_channels seq fold_left channel].
  now rewrite !column_single.
Qed.

(** C5: two 1-dimensional arrays of equal length [N] give the result of the
    same data passed as [(N, 1)] arrays, and that result is a vector of
    two numbers. *)
Theorem C5_one_dimensional_as_column (a b : list xreal) :
  length a = length b ->
  compute_waveform_distance (Arr1 a) (Arr1 b)
  = compute_waveform_distance (as_column a) (as_column b)
  /\ exists d1 d2, compute_waveform_distance (Arr1 a) (Arr1 b) = Ok [d1; d2].
Proof.
  intros Hlen.
  assert (Hs1 : shape (Arr1 a) = shape (Arr1 b)) by (simpl; now rewrite Hlen).
  assert (Hs2 : shape (as_column a) = shape (as_column b))
    by (simpl; now rewrite Hlen).
  split.
  - unfold compute_waveform_distance.
    rewrite (body_run _ _ Hs1), (body_run _ _ Hs2).
    now rewrite alphas_of_as_column, d_1_of_as_column, alphas_of_Arr1.
  - destruct (compute_returns _ _ Hs1) as (d & m & _ & _ & Hr);
      [simpl; lia | eauto].
Qed.

Lemma C5_one_dimensional_as_column_witness :
  compute_waveform_distance (Arr1 [Fin 1; Fin 2; Fin 3]) (Arr1 [Fin 2; Fin 4; Fin 7])
  = compute_waveform_distance (Arr2 3 1 [Fin 1; Fin 2; Fin 3])
                              (Arr2 3 1 [Fin 2; Fin 4; Fin 7]).
Proof.
  apply (proj1 (C5_one_dimensional_as_column
                  [Fin 1; Fin 2; Fin 3] [Fin 2; Fin 4; Fin 7] eq_refl)).
Defined.

(* ================================================================== *)
(** ** C6: an all-zero channel of [x] *)

Lemma xmul_zero_l (v : xreal) : xmul (Fin 0) v = Fin 0 \/ xmul (Fin 0) v = NaN.
Proof.
  destruct v as [r | | |]; simpl.
  - left. f_equal. lra.
  - right. unfold inf_times.
    destruct (total_order_T 0 0) as [[H | H] | H]; try lra; reflexivity.
  - right. unfold inf_times.
    destruct (total_order_T 0 0) as [[H | H] | H]; try lra; reflexivity.
  - now right.
Qed.

Lemma dot_zero_l (a : list xreal) :
  (forall v, In v a -> v = Fin 0) ->
  forall (b : list xreal) (acc : xreal),
    acc = Fin 0 \/ acc = NaN ->
    dot a b acc = Fin 0 \/ dot a b acc = NaN.
Proof.
  induction a as [| u a IH]; intros Hz b acc Hacc; [exact Hacc |].
  destruct b as [| v b]; [exact Hacc |].
  cbn [dot]. apply IH; [intros w Hw; apply Hz; now right |].
  rewrite (Hz u) by now left.
  destruct Hacc as [-> | ->]; [| now right].
  destruct (xmul_zero_l v) as [-> | ->]; [left | now right].
  simpl. f_equal. lra.
Qed.

Lemma dot_zero_self (a : list xreal) :
  (forall v, In v a -> v = Fin 0) -> dot a a (Fin 0) = Fin 0.
Proof.
  induction a as [| u a IH]; intros Hz; [reflexivity |].
  cbn [dot]. rewrite (Hz u) by now left.
  replace (xadd (Fin 0) (xmul (Fin 0) (Fin 0))) with (Fin 0)
    by (simpl; f_equal; lra).
  apply IH. intros w Hw. apply Hz. now right.
Qed.

(** [0/0]: the scaling factor of an all-zero channel is NaN. *)
Lemma alpha_of_zero_channel (xi yi : list xreal) :
  (forall v, In v xi -> v = Fin 0) -> alpha_of xi yi = NaN.
Proof.
  intros Hz. unfold alpha_of. rewrite (dot_zero_self xi Hz).
  destruct (dot_zero_l xi Hz yi (Fin 0)) as [-> | ->]; [now left | |].
  - simpl. apply fin_div_0_0.
  - reflexivity.
Qed.

Lemma fold_left_xadd_nan (l : list xreal) : fold_left xadd l NaN = NaN.
Proof. induction l as [| a l IH]; [reflexivity | exact IH]. Qed.

Lemma d1_term_nan (xi yi : list xreal) :
  length xi = length yi -> alpha_of xi yi = NaN -> d1_term xi yi = NaN.
Proof.
  intros Hlen Ha. unfold d1_term. rewrite Ha.
  destruct xi as [| u xi], yi as [| v yi]; try discriminate Hlen.
  - unfold vec_norm, np_sum. simpl.
    destruct (Rlt_dec 0 0); [reflexivity |].
    rewrite sqrt_0. apply fin_div_0_0.
  - unfold vec_norm at 1, np_sum, square, scale.
    cbn [map zip_sub xmul fold_left]. rewrite xsub_nan_l.
    cbn [xmul]. rewrite xadd_nan_r, fold_left_xadd_nan. reflexivity.
Qed.

Lemma fold_left_xadd_term_nan {A : Type} (f : A -> xreal) (l : list A) (i : A) :
  In i l -> f i = NaN ->
  forall s : xreal, fold_left (fun s j => xadd s (f j)) l s = NaN.
Proof.
  intros Hin Hf s. rewrite fold_left_xadd_map.
  apply (in_map f) in Hin. rewrite Hf in Hin.
  revert s. induction (map f l) as [| a t IH]; intros s; [contradiction |].
  cbn [fold_left]. destruct Hin as [-> | Hin].
  - rewrite xadd_nan_r. apply fold_left_xadd_nan.
  - now apply IH.
Qed.

Lemma fold_left_xmaximum_nan (t : list xreal) : fold_left xmaximum t NaN = NaN.
Proof. induction t as [| e t IH]; [reflexivity | exact IH]. Qed.

Lemma xmaximum_nan_r (a : xreal) : xmaximum a NaN = NaN.
Proof. destruct a; reflexivity. Qed.

(** [np.max] of an array that holds a NaN is NaN. *)
Lemma np_max_nan (v : list xreal) : In NaN v -> np_max v = Ok NaN.
Proof.
  destruct v as [| a t]; [contradiction |]. intros Hin. simpl. f_equal.
  revert a Hin. induction t as [| e t IH]; intros a Hin.
  - destruct Hin as [-> | []]. reflexivity.
  - cbn [fold_left]. destruct Hin as [-> | [-> | Hin]].
    + apply fold_left_xmaximum_nan.
    + rewrite xmaximum_nan_r. apply fold_left_xmaximum_nan.
    + apply IH. now right.
Qed.

(** C6: when some channel [x_i] is entirely zero the call raises nothing;
    [alpha_i] is NaN, and so are both components of the result. *)
Theorem C6_zero_channel_gives_nan (x y : ndarray) (i : nat) :
  shape x = shape y -> (i < n_channels x)%nat -> zero_channel x i ->
  exists l : locals,
    body x y = Ok l
    /\ nth_error (alphas l) i = Some NaN
    /\ compute_waveform_distance x y = Ok [NaN; NaN].
Proof.
  intros Hs Hi Hz.
  assert (Hai : alpha_of (channel x i) (channel y i) = NaN)
    by now apply alpha_of_zero_channel.
  assert (Hd1 : d_1_of x y = NaN).
  { unfold d_1_of. apply (fold_left_xadd_term_nan _ _ i).
    - apply in_seq. lia.
    - apply d1_term_nan; [| exact Hai].
      rewrite !channel_length. now apply same_shape_samples. }
  assert (Hnan : In NaN (map (fun a => xabs (xlog a)) (alphas_of x y))).
  { apply in_map_iff. exists NaN. split; [reflexivity |].
    apply (nth_error_In _ i). rewrite nth_error_alphas_of by assumption.
    now rewrite Hai. }
  destruct (body_returns x y Hs) as (a & m & Ha & _ & Hb); [lia |].
  rewrite (np_max_nan _ Hnan) in Ha. injection Ha as <-.
  eexists. split; [exact Hb |]. cbn [alphas]. split.
  - rewrite nth_error_alphas_of by assumption. now rewrite Hai.
  - unfold compute_waveform_distance. rewrite Hb. cbn [bind d_1 d_2].
    now rewrite Hd1.
Qed.

Lemma C6_zero_channel_gives_nan_witness :
  exists l : locals,
    body (Arr2 2 2 [Fin 1; Fin 0; Fin 3; Fin 0])
         (Arr2 2 2 [Fin 2; Fin 1; Fin 0; Fin 5]) = Ok l
    /\ nth_error (alphas l) 1 = Some NaN
    /\ compute_waveform_distance (Arr2 2 2 [Fin 1; Fin 0; Fin 3; Fin 0])
                                 (Arr2 2 2 [Fin 2; Fin 1; Fin 0; Fin 5])
       = Ok [NaN; NaN].
Proof.
  apply C6_zero_channel_gives_nan.
  - reflexivity.
  - simpl; lia.
  - unfold zero_channel; simpl. intros v [<- | [<- | []]]; reflexivity.
Defined.

(* ================================================================== *)
(** ** Real-valued waveforms *)

Lemma d1_term_Fin (a b : list R) (al : R) :
  alpha_of (map Fin a) (map Fin b) = Fin al ->
  d1_term (map Fin a) (map Fin b)
  = fin_div (sqrt (sq_residual al a b)) (sqrt (Rdot b b)).
Proof.
  intros Hal. unfold d1_term. rewrite Hal.
  now rewrite vec_norm_residual_Fin, vec_norm_Fin.
Qed.

Lemma fin_div_0_l (s : R) : s <> 0 -> fin_div 0 s = Fin 0.
Proof.
  intros H. rewrite fin_div_nonzero by assumption. f_equal.
  unfold Rdiv. apply Rmult_0_l.
Qed.

Lemma sqrt_pos_neq (r : R) : 0 < r -> sqrt r <> 0.
Proof. intros H. pose proof (sqrt_lt_R0 r H). lra. Qed.

Lemma fold_left_xadd_zero {A : Type} (f : A -> xreal) (l : list A) :
  (forall i, In i l -> f i = Fin 0) ->
  fold_left (fun s i => xadd s (f i)) l (Fin 0) = Fin 0.
Proof.
  induction l as [| i l IH]; intros H; [reflexivity |].
  cbn [fold_left]. rewrite (H i) by now left.
  replace (xadd (Fin 0) (Fin 0)) with (Fin 0) by (simpl; f_equal; lra).
  apply IH. intros j Hj. apply H. now right.
Qed.

Lemma np_max_In (v : list xreal) (m : xreal) : np_max v = Ok m -> In m v.
Proof. intros H. now destruct (np_max_is_max v m H). Qed.

Lemma py_max_In (v : list xreal) (m : xreal) : py_max v = Ok m -> In m v.
Proof. intros H. now destruct (py_max_is_max v m H). Qed.

Lemma in_log_gaps (alphas : list xreal) (v : xreal) :
  In v (log_gaps alphas) ->
  exists a b, In a alphas /\ In b alphas /\ v = log_gap a b.
Proof.
  unfold log_gaps. intros H. apply in_flat_map in H.
  destruct H as (a & Ha & H). apply in_map_iff in H.
  destruct H as (b & <- & Hb). now exists a, b.
Qed.

Lemma in_alphas_of (x y : ndarray) (a : xreal) :
  In a (alphas_of x y) ->
  exists i, (i < n_channels x)%nat /\ a = alpha_of (channel x i) (channel y i).
Proof.
  unfold alphas_of. intros H. apply in_map_iff in H.
  destruct H as (i & <- & Hi). apply in_seq in Hi. exists i. split; [lia | reflexivity].
Qed.

Lemma map_const {A B : Type} (v : B) (l : list A) :
  map (fun _ => v) l = repeat v (length l).
Proof. induction l as [| i l IH]; [reflexivity | simpl; now rewrite IH]. Qed.

(* ================================================================== *)
(** ** C7: identical waveforms *)

Lemma sq_residual_one_self (a : list R) : sq_residual 1 a a = 0.
Proof.
  induction a as [| u a IH]; [reflexivity |].
  cbn [sq_residual]. rewrite IH. ring.
Qed.

Lemma alpha_of_self (a : list R) :
  0 < Rdot a a -> alpha_of (map Fin a) (map Fin a) = Fin 1.
Proof.
  intros H. rewrite alpha_of_Fin, fin_div_nonzero by lra. f_equal. field. lra.
Qed.

Lemma d1_term_self (a : list R) :
  0 < Rdot a a -> d1_term (map Fin a) (map Fin a) = Fin 0.
Proof.
  intros H. rewrite (d1_term_Fin a a 1) by now apply alpha_of_self.
  rewrite sq_residual_one_self, sqrt_0.
  apply fin_div_0_l. now apply sqrt_pos_neq.
Qed.

Lemma abs_log_one : xabs (xlog (Fin 1)) = Fin 0.
Proof. rewrite xlog_pos by lra. simpl. now rewrite ln_1, Rabs_R0. Qed.

Lemma log_gap_one_one : log_gap (Fin 1) (Fin 1) = Fin 0.
Proof.
  unfold log_gap. rewrite xlog_pos by lra. rewrite xsub_fin. simpl.
  f_equal. rewrite ln_1, Rminus_diag. apply Rabs_R0.
Qed.

(** C7, as amended: over exact real arithmetic (no rounding, overflow or
    underflow), for a real-valued waveform [x] with at least one channel,
    none of them entirely zero, and [y] equal to it element by element,
    every scaling factor is 1 and the result is exactly [[0, 0]].  On
    binary64 numbers [dot(x_i, x_i)] can overflow or underflow and the
    result is then NaN, as the runs at the end of the file show. *)
Theorem C7_identical_waveforms_distance_zero (x y : ndarray) :
  waveform x -> shape x = shape y ->
  (forall i, (i < n_channels x)%nat -> channel y i = channel x i) ->
  (0 < n_channels x)%nat ->
  (forall i, (i < n_channels x)%nat -> nonzero_channel x i) ->
  exists l : locals,
    body x y = Ok l
    /\ alphas l = repeat (Fin 1) (n_channels x)
    /\ compute_waveform_distance x y = Ok [Fin 0; Fin 0].
Proof.
  intros Hw Hs Heq Hc Hnz.
  assert (Hal : alphas_of x y = repeat (Fin 1) (n_channels x)).
  { unfold alphas_of.
    rewrite (map_ext_in _ (fun _ => Fin 1)).
    - rewrite map_const, length_seq. reflexivity.
    - intros i Hi. apply in_seq in Hi.
      rewrite Heq by lia. rewrite (channel_samples x i Hw).
      apply alpha_of_self, nonzero_channel_samples; [assumption |].
      apply Hnz. lia. }
  assert (Hd1 : d_1_of x y = Fin 0).
  { unfold d_1_of. apply fold_left_xadd_zero. intros i Hi. apply in_seq in Hi.
    rewrite Heq by lia. rewrite (channel_samples x i Hw).
    apply d1_term_self, nonzero_channel_samples; [assumption |].
    apply Hnz. lia. }
  destruct (body_returns x y Hs Hc) as (a & m & Ha & Hm & Hb).
  assert (Ea : a = Fin 0).
  { apply np_max_In in Ha. rewrite Hal in Ha. apply in_map_iff in Ha.
    destruct Ha as (v & <- & Hv). apply repeat_spec in Hv. subst v.
    apply abs_log_one. }
  assert (Em : m = Fin 0).
  { apply py_max_In in Hm. rewrite Hal in Hm. apply in_log_gaps in Hm.
    destruct Hm as (u & v & Hu & Hv & ->).
    apply repeat_spec in Hu, Hv. subst u v. apply log_gap_one_one. }
  subst a m. eexists. split; [exact Hb |]. cbn [alphas]. split; [exact Hal |].
  unfold compute_waveform_distance. rewrite Hb. cbn [bind d_1 d_2].
  rewrite Hd1. do 3 f_equal. simpl. f_equal. lra.
Qed.

Lemma C7_identical_waveforms_distance_zero_witness :
  exists l : locals,
    body (Arr2 2 2 [Fin 1; Fin 2; Fin 3; Fin 4])
         (Arr2 2 2 [Fin 1; Fin 2; Fin 3; Fin 4]) = Ok l
    /\ alphas l = [Fin 1; Fin 1]
    /\ compute_waveform_distance (Arr2 2 2 [Fin 1; Fin 2; Fin 3; Fin 4])
                                 (Arr2 2 2 [Fin 1; Fin 2; Fin 3; Fin 4])
       = Ok [Fin 0; Fin 0].
Proof.
  apply (C7_identical_waveforms_distance_zero
           (Arr2 2 2 [Fin 1; Fin 2; Fin 3; Fin 4])
           (Arr2 2 2 [Fin 1; Fin 2; Fin 3; Fin 4])).
  - finite_entries.
  - reflexivity.
  - reflexivity.
  - simpl; lia.
  - intros i Hi. simpl in Hi.
    destruct i as [| [| i]];
      [nonzero_entry (Fin 1) | nonzero_entry (Fin 2) | lia].
Defined.

(* ================================================================== *)
(** ** C8: a single channel scaled by [k] *)

Lemma nth_scale (k : R) (d : list xreal) (j : nat) :
  nth j (scale (Fin k) d) (Fin 0) = xmul (Fin k) (nth j d (Fin 0)).
Proof.
  unfold scale.
  replace (Fin 0) with (xmul (Fin k) (Fin 0)) at 1 by (simpl; f_equal; lra).
  apply map_nth.
Qed.

Lemma channel_scale_array (k : R) (x : ndarray) (i : nat) :
  channel (scale_array (Fin k) x) i = scale (Fin k) (channel x i).
Proof.
  destruct x as [d | n c d]; [reflexivity |].
  cbn [scale_array channel]. unfold column, scale at 2. rewrite map_map.
  apply map_ext. intros r. apply nth_scale.
Qed.

Lemma scale_Fin (k : R) (a : list R) :
  scale (Fin k) (map Fin a) = map Fin (map (Rmult k) a).
Proof. unfold scale. rewrite !map_map. reflexivity. Qed.

Lemma shape_scale_array (k : xreal) (x : ndarray) :
  shape (scale_array k x) = shape x.
Proof. destruct x; simpl; [| reflexivity]. unfold scale. now rewrite length_map. Qed.

Lemma n_channels_scale_array (k : xreal) (x : ndarray) :
  n_channels (scale_array k x) = n_channels x.
Proof. destruct x; reflexivity. Qed.

Lemma Rdot_scale_r (k : R) (a b : list R) :
  Rdot a (map (Rmult k) b) = k * Rdot a b.
Proof.
  revert b. induction a as [| u a IH]; intros b; [simpl; ring |].
  destruct b as [| v b]; [simpl; ring |].
  cbn [map Rdot]. rewrite IH. ring.
Qed.

Lemma Rdot_scale_l (k : R) (a b : list R) :
  Rdot (map (Rmult k) a) b = k * Rdot a b.
Proof.
  revert b. induction a as [| u a IH]; intros b; [simpl; ring |].
  destruct b as [| v b]; [simpl; ring |].
  cbn [map Rdot]. rewrite IH. ring.
Qed.

Lemma sq_residual_scaled_copy (k : R) (a : list R) :
  sq_residual k a (map (Rmult k) a) = 0.
Proof.
  induction a as [| u a IH]; [reflexivity |].
  cbn [map sq_residual]. rewrite IH. ring.
Qed.

(** C8, as amended: over exact real arithmetic (no rounding, overflow or
    underflow), for a real-valued single-channel waveform [x] that is not
    entirely zero and a scalar [k > 0], the call on [x] and [k * x] has
    [alpha = k] and returns [d1 = 0] and [d2 = |log(k)|].  On binary64
    numbers the dot products round and [alpha] and [d1] are off by a few
    units in the last place, as the runs at the end of the file show. *)
Theorem C8_pure_scaling_single_channel (x : ndarray) (k : R) :
  waveform x -> n_channels x = 1%nat -> nonzero_channel x 0 -> 0 < k ->
  exists l : locals,
    body x (scale_array (Fin k) x) = Ok l
    /\ alphas l = [Fin k]
    /\ compute_waveform_distance x (scale_array (Fin k) x)
       = Ok [Fin 0; Fin (Rabs (ln k))].
Proof.
  intros Hw Hc Hnz Hk.
  pose proof (nonzero_channel_samples x 0 Hw Hnz) as Hpos.
  set (a := samples x 0) in *.
  assert (Hs : shape x = shape (scale_array (Fin k) x))
    by now rewrite shape_scale_array.
  assert (Hy : channel (scale_array (Fin k) x) 0 = map Fin (map (Rmult k) a)).
  { rewrite channel_scale_array, (channel_samples x 0 Hw). apply scale_Fin. }
  assert (Hal0 : alpha_of (channel x 0) (channel (scale_array (Fin k) x) 0)
                 = Fin k).
  { rewrite Hy, (channel_samples x 0 Hw). fold a.
    rewrite alpha_of_Fin, Rdot_scale_r, fin_div_nonzero by lra.
    f_equal. field. lra. }
  assert (Hal : alphas_of x (scale_array (Fin k) x) = [Fin k]).
  { unfold alphas_of. rewrite Hc. cbn [seq map]. now rewrite Hal0. }
  assert (Hd1 : d_1_of x (scale_array (Fin k) x) = Fin 0).
  { unfold d_1_of. rewrite Hc. cbn [seq fold_left].
    rewrite Hy, (channel_samples x 0 Hw). fold a.
    rewrite (d1_term_Fin a (map (Rmult k) a) k).
    - rewrite sq_residual_scaled_copy, sqrt_0.
      rewrite fin_div_0_l; [simpl; f_equal; lra |].
      apply sqrt_pos_neq. rewrite Rdot_scale_l, Rdot_scale_r.
      repeat apply Rmult_lt_0_compat; assumption.
    - rewrite <- Hal0, Hy, (channel_samples x 0 Hw). reflexivity. }
  destruct (body_returns x _ Hs) as (d & m & Hd & Hm & Hb); [lia |].
  rewrite Hal in Hd, Hm, Hb.
  unfold np_max in Hd. cbn [map fold_left] in Hd. injection Hd as <-.
  unfold py_max, log_gaps in Hm. cbn [flat_map map app fold_left] in Hm.
  injection Hm as <-.
  eexists. split; [exact Hb |]. cbn [alphas]. split; [reflexivity |].
  unfold compute_waveform_distance. rewrite Hb. cbn [bind d_1 d_2].
  rewrite Hd1. do 3 f_equal.
  unfold log_gap. rewrite xlog_pos by assumption. rewrite xsub_fin.
  rewrite Rminus_diag. cbn [xabs]. rewrite Rabs_R0.
  destruct (total_order_T k 0) as [[H | H] | H]; try lra.
  cbn [xabs xadd]. f_equal. lra.
Qed.

Lemma C8_pure_scaling_single_channel_witness :
  exists l : locals,
    body (Arr2 3 1 [Fin 1; Fin 2; Fin 3])
         (scale_array (Fin 2) (Arr2 3 1 [Fin 1; Fin 2; Fin 3])) = Ok l
    /\ alphas l = [Fin 2]
    /\ compute_waveform_distance
         (Arr2 3 1 [Fin 1; Fin 2; Fin 3])
         (scale_array (Fin 2) (Arr2 3 1 [Fin 1; Fin 2; Fin 3]))
       = Ok [Fin 0; Fin (Rabs (ln 2))].
Proof.
  apply C8_pure_scaling_single_channel.
  - finite_entries.
  - reflexivity.
  - nonzero_entry (Fin 1).
  - lra.
Defined.

(* ================================================================== *)
(** ** C9: rescaling [x] *)

Lemma sq_residual_rescaled (k al : R) (a b : list R) :
  k <> 0 ->
  sq_residual (al / k) (map (Rmult k) a) b = sq_residual al a b.
Proof.
  intros Hk. revert b. induction a as [| u a IH]; intros b; [reflexivity |].
  destruct b as [| v b]; [reflexivity |].
  cbn [map sq_residual]. rewrite IH.
  replace (al / k * (k * u)) with (al * u) by (field; assumption).
  reflexivity.
Qed.

Lemma xlog_div (a k : R) :
  0 < k -> xlog (Fin (a / k)) = xsub (xlog (Fin a)) (Fin (ln k)).
Proof.
  intros Hk. pose proof (Rinv_0_lt_compat k Hk) as Hik.
  destruct (total_order_T a 0) as [[Ha | Ha] | Ha].
  - rewrite !xlog_neg; [reflexivity | assumption |].
    unfold Rdiv. replace 0 with (0 * / k) by ring.
    now apply Rmult_lt_compat_r.
  - subst a. replace (0 / k) with 0 by (unfold Rdiv; ring).
    now rewrite xlog_zero.
  - rewrite !xlog_pos; [| assumption |].
    + rewrite xsub_fin. f_equal. unfold Rdiv.
      rewrite ln_mult, ln_Rinv by assumption. ring.
    + unfold Rdiv. now apply Rmult_lt_0_compat.
Qed.

Lemma xsub_shift_cancel (A B : xreal) (c : R) :
  xabs (xsub (xsub A (Fin c)) (xsub B (Fin c))) = xabs (xsub A B).
Proof.
  destruct A, B; unfold xsub; simpl; try reflexivity. f_equal. f_equal. lra.
Qed.

Lemma log_gap_rescaled (a b k : R) :
  0 < k -> log_gap (Fin (a / k)) (Fin (b / k)) = log_gap (Fin a) (Fin b).
Proof.
  intros Hk. unfold log_gap. rewrite !xlog_div by assumption.
  apply xsub_shift_cancel.
Qed.

Lemma flat_map_map_ext_in {A B : Type} (g h : A -> A -> B) (l : list A) :
  (forall i j, In i l -> In j l -> g i j = h i j) ->
  flat_map (fun i => map (fun j => g i j) l) l
  = flat_map (fun i => map (fun j => h i j) l) l.
Proof.
  intros H.
  assert (G : forall l1, (forall i, In i l1 -> In i l) ->
            flat_map (fun i => map (fun j => g i j) l) l1
            = flat_map (fun i => map (fun j => h i j) l) l1).
  { induction l1 as [| i l1 IH]; intros Hin; [reflexivity |].
    cbn [flat_map]. rewrite IH by (intros j Hj; apply Hin; now right).
    f_equal. apply map_ext_in. intros j Hj. apply H; [| assumption].
    apply Hin. now left. }
  apply G. auto.
Qed.

Section Rescaling.

Variables (x y : ndarray) (k : R).
Hypothesis Hx : waveform x.
Hypothesis Hy : waveform y.
Hypothesis Hs : shape x = shape y.
Hypothesis Hnz : forall i, (i < n_channels x)%nat -> nonzero_channel x i.
Hypothesis Hk : 0 < k.

Lemma alpha_well_defined (i : nat) :
  (i < n_channels x)%nat ->
  alpha x y i
  = Fin (Rdot (samples x i) (samples y i) / Rdot (samples x i) (samples x i)).
Proof.
  intros Hi. unfold alpha. rewrite alpha_of_samples by assumption.
  apply fin_div_nonzero.
  pose proof (nonzero_channel_samples x i Hx (Hnz i Hi)). lra.
Qed.

Lemma channel_rescaled (i : nat) :
  channel (scale_array (Fin k) x) i = map Fin (map (Rmult k) (samples x i)).
Proof.
  rewrite channel_scale_array, (channel_samples x i Hx). apply scale_Fin.
Qed.

Lemma alpha_rescaled (i : nat) :
  (i < n_channels x)%nat ->
  alpha (scale_array (Fin k) x) y i
  = Fin (Rdot (samples x i) (samples y i) / Rdot (samples x i) (samples x i) / k).
Proof.
  intros Hi. unfold alpha.
  rewrite channel_rescaled, (channel_samples y i Hy).
  rewrite alpha_of_Fin, !Rdot_scale_l, Rdot_scale_r.
  pose proof (nonzero_channel_samples x i Hx (Hnz i Hi)) as Hpos.
  rewrite fin_div_nonzero.
  - f_equal. field. lra.
  - apply Rgt_not_eq. repeat apply Rmult_lt_0_compat; assumption.
Qed.

Lemma d1_term_rescaled (i : nat) :
  (i < n_channels x)%nat ->
  d1_term (channel (scale_array (Fin k) x) i) (channel y i)
  = d1_term (channel x i) (channel y i).
Proof.
  intros Hi.
  pose proof (alpha_rescaled i Hi) as Ha'. pose proof (alpha_well_defined i Hi) as Ha.
  unfold alpha in Ha, Ha'.
  rewrite channel_rescaled, (channel_samples y i Hy) in *.
  rewrite (channel_samples x i Hx) in *.
  rewrite (d1_term_Fin _ _ _ Ha'), (d1_term_Fin _ _ _ Ha).
  rewrite sq_residual_rescaled by lra. reflexivity.
Qed.

Lemma d_1_of_rescaled : d_1_of (scale_array (Fin k) x) y = d_1_of x y.
Proof.
  unfold d_1_of. rewrite n_channels_scale_array.
  apply fold_left_ext_in. intros s i Hi. apply in_seq in Hi.
  rewrite d1_term_rescaled by lia. reflexivity.
Qed.

Lemma log_gaps_rescaled :
  log_gaps (alphas_of (scale_array (Fin k) x) y) = log_gaps (alphas_of x y).
Proof.
  unfold alphas_of. rewrite n_channels_scale_array.
  rewrite <- !log_gaps_map_seq.
  apply flat_map_map_ext_in. intros i j Hi Hj. apply in_seq in Hi, Hj.
  fold (alpha (scale_array (Fin k) x) y i) (alpha (scale_array (Fin k) x) y j).
  fold (alpha x y i) (alpha x y j).
  rewrite !alpha_rescaled, !alpha_well_defined by lia.
  now apply log_gap_rescaled.
Qed.

End Rescaling.

(** C9: for real-valued waveforms of equal shape in which no channel of
    [x] is entirely zero (every [alpha_i] is defined) and a scalar
    [k > 0], replacing [x] by [k * x] divides every [alpha_i] by [k] and
    leaves [d_1] and the list of pairwise log-differences, hence its
    maximum [d2b], unchanged. *)
Theorem C9_rescaling_x_preserves_d1_and_d2b (x y : ndarray) (k : R) :
  waveform x -> waveform y -> shape x = shape y ->
  (0 < n_channels x)%nat ->
  (forall i, (i < n_channels x)%nat -> nonzero_channel x i) ->
  0 < k ->
  exists l l' : locals,
    body x y = Ok l
    /\ body (scale_array (Fin k) x) y = Ok l'
    /\ (forall i, (i < n_channels x)%nat ->
          exists a : R, nth_error (alphas l) i = Some (Fin a)
                        /\ nth_error (alphas l') i = Some (Fin (a / k)))
    /\ d_1 l' = d_1 l
    /\ d_2b l' = d_2b l
    /\ py_max (d_2b l') = py_max (d_2b l).
Proof.
  intros Hx Hy Hs Hc Hnz Hk.
  assert (Hs' : shape (scale_array (Fin k) x) = shape y)
    by now rewrite shape_scale_array.
  destruct (body_returns x y Hs Hc) as (a & m & _ & _ & Hb).
  destruct (body_returns _ y Hs') as (a' & m' & _ & _ & Hb');
    [now rewrite n_channels_scale_array |].
  eexists. eexists. split; [exact Hb |]. split; [exact Hb' |].
  cbn [alphas d_1 d_2b].
  assert (Hg := log_gaps_rescaled x y k Hx Hy Hnz Hk).
  split; [| split; [| split]].
  - intros i Hi.
    exists (Rdot (samples x i) (samples y i) / Rdot (samples x i) (samples x i)).
    rewrite !nth_error_alphas_of
      by (try rewrite n_channels_scale_array; assumption).
    fold (alpha x y i) (alpha (scale_array (Fin k) x) y i).
    now rewrite (alpha_well_defined x y Hx Hy Hnz i Hi),
      (alpha_rescaled x y k Hx Hy Hnz Hk i Hi).
  - now apply d_1_of_rescaled.
  - exact Hg.
  - now rewrite Hg.
Qed.

Lemma C9_rescaling_x_preserves_d1_and_d2b_witness :
  exists l l' : locals,
    body (Arr2 2 2 [Fin 1; Fin 2; Fin 3; Fin 4])
         (Arr2 2 2 [Fin 2; Fin 1; Fin 0; Fin 5]) = Ok l
    /\ body (scale_array (Fin 3) (Arr2 2 2 [Fin 1; Fin 2; Fin 3; Fin 4]))
            (Arr2 2 2 [Fin 2; Fin 1; Fin 0; Fin 5]) = Ok l'
    /\ d_1 l' = d_1 l
    /\ py_max (d_2b l') = py_max (d_2b l).
Proof.
  destruct (C9_rescaling_x_preserves_d1_and_d2b
              (Arr2 2 2 [Fin 1; Fin 2; Fin 3; Fin 4])
              (Arr2 2 2 [Fin 2; Fin 1; Fin 0; Fin 5]) 3)
    as (l & l' & Hb & Hb' & _ & Hd1 & _ & Hd2b).
  - finite_entries.
  - finite_entries.
  - reflexivity.
  - simpl; lia.
  - intros i Hi. simpl in Hi.
    destruct i as [| [| i]];
      [nonzero_entry (Fin 1) | nonzero_entry (Fin 2) | lia].
  - lra.
  - now exists l, l'.
Defined.

(* ================================================================== *)
(** ** C10: the components are not negative *)

Lemma nonneg_xadd (a b : xreal) : nonneg a -> nonneg b -> nonneg (xadd a b).
Proof.
  intros (r & -> & Hr) (s & -> & Hs). exists (r + s). split; [reflexivity | lra].
Qed.

Lemma nonneg_abs_log (a : xreal) : positive a -> nonneg (xabs (xlog a)).
Proof.
  intros (r & -> & Hr). rewrite xlog_pos by assumption.
  exists (Rabs (ln r)). split; [reflexivity | apply Rabs_pos].
Qed.

Lemma nonneg_log_gap (a b : xreal) :
  positive a -> positive b -> nonneg (log_gap a b).
Proof.
  intros (r & -> & Hr) (s & -> & Hs). unfold log_gap.
  rewrite !xlog_pos by assumption. rewrite xsub_fin.
  exists (Rabs (ln r - ln s)). split; [reflexivity | apply Rabs_pos].
Qed.

Lemma never_negative_xadd (a b : xreal) :
  never_negative a -> never_negative b -> never_negative (xadd a b).
Proof.
  intros [-> | [-> | (r & -> & Hr)]] [-> | [-> | (s & -> & Hs)]];
    cbn [xadd]; try (now left); try (now right; left).
  right; right. exists (r + s). split; [reflexivity | lra].
Qed.

Lemma never_negative_square (a : xreal) : never_negative (xmul a a).
Proof.
  destruct a as [r | | |]; cbn [xmul];
    try (now left); try (now right; left).
  right; right. exists (r * r). split; [reflexivity |].
  pose proof (Rle_0_sqr r) as H. unfold Rsqr in H. exact H.
Qed.

Lemma never_negative_xsqrt (a : xreal) :
  never_negative a -> never_negative (xsqrt a).
Proof.
  intros [-> | [-> | (r & -> & Hr)]]; [now left | now right; left |].
  rewrite xsqrt_fin by assumption.
  right; right. exists (sqrt r). split; [reflexivity | apply sqrt_pos].
Qed.

Lemma never_negative_xdiv (a b : xreal) :
  never_negative a -> never_negative b -> never_negative (xdiv a b).
Proof.
  intros [-> | [-> | (r & -> & Hr)]] [-> | [-> | (s & -> & Hs)]];
    cbn [xdiv]; try (now left).
  - unfold inf_over. destruct (Rlt_dec s 0); [lra | now right; left].
  - right; right. exists 0. split; [reflexivity | lra].
  - unfold fin_div. destruct (Req_dec_T s 0) as [E | E].
    + destruct (total_order_T r 0) as [[H | H] | H];
        [lra | now left | now right; left].
    + right; right. exists (r / s). split; [reflexivity |].
      unfold Rdiv. apply Rmult_le_pos; [exact Hr |].
      left. apply Rinv_0_lt_compat. lra.
Qed.

Lemma never_negative_xabs (a : xreal) : never_negative (xabs a).
Proof.
  destruct a as [r | | |]; cbn [xabs];
    try (now left); try (now right; left).
  right; right. exists (Rabs r). split; [reflexivity | apply Rabs_pos].
Qed.

Lemma never_negative_zero : never_negative (Fin 0).
Proof. right; right. exists 0. split; [reflexivity | lra]. Qed.

Lemma never_negative_vec_norm (v : list xreal) : never_negative (vec_norm v).
Proof.
  unfold vec_norm, np_sum, square. apply never_negative_xsqrt.
  generalize never_negative_zero. generalize (Fin 0).
  induction v as [| a v IH]; intros s Hs; [exact Hs |].
  cbn [map fold_left]. apply IH.
  apply never_negative_xadd; [exact Hs | apply never_negative_square].
Qed.

Lemma never_negative_d_1_of (x y : ndarray) : never_negative (d_1_of x y).
Proof.
  unfold d_1_of. generalize never_negative_zero. generalize (Fin 0).
  induction (seq 0 (n_channels x)) as [| i l IH]; intros s Hs; [exact Hs |].
  cbn [fold_left]. apply IH. apply never_negative_xadd; [exact Hs |].
  unfold d1_term. apply never_negative_xdiv; apply never_negative_vec_norm.
Qed.

(** C10, as the code has it on floating point numbers: for equally shaped
    arrays with at least one channel neither component is ever negative;
    each is a number that is not negative, plus infinity or NaN ([d_1] is
    a sum of quotients of norms, [d_2] a sum of two maxima of absolute
    values).  When every scaling factor is a strictly positive number,
    [d_2] is a number that is not negative. *)
Theorem C10_components_never_negative (x y : ndarray) :
  shape x = shape y -> (0 < n_channels x)%nat ->
  exists d1 d2 : xreal,
    compute_waveform_distance x y = Ok [d1; d2]
    /\ never_negative d1 /\ never_negative d2
    /\ ((forall i, (i < n_channels x)%nat -> positive (alpha x y i)) ->
        nonneg d2).
Proof.
  intros Hs Hc.
  destruct (compute_returns x y Hs Hc) as (a & m & Ha & Hm & Hr).
  exists (d_1_of x y), (xadd a m). split; [exact Hr |].
  pose proof (np_max_In _ _ Ha) as Hina. apply in_map_iff in Hina.
  destruct Hina as (v & Ev & Hv).
  pose proof (py_max_In _ _ Hm) as Hinm. apply in_log_gaps in Hinm.
  destruct Hinm as (u & w & Hu & Hw & Em).
  split; [apply never_negative_d_1_of |]. split.
  - apply never_negative_xadd.
    + rewrite <- Ev. apply never_negative_xabs.
    + rewrite Em. apply never_negative_xabs.
  - intros Hpos.
    assert (Hall : forall t, In t (alphas_of x y) -> positive t).
    { intros t Ht. apply in_alphas_of in Ht. destruct Ht as (i & Hi & ->).
      now apply Hpos. }
    apply nonneg_xadd.
    + rewrite <- Ev. now apply nonneg_abs_log, Hall.
    + rewrite Em. apply nonneg_log_gap; now apply Hall.
Qed.

Lemma C10_components_never_negative_witness :
  exists d1 d2 : xreal,
    compute_waveform_distance (Arr2 2 2 [Fin 1; Fin 2; Fin 3; Fin 4])
                              (Arr2 2 2 [Fin 2; Fin 1; Fin 0; Fin 5])
    = Ok [d1; d2]
    /\ never_negative d1 /\ nonneg d2.
Proof.
  destruct (C10_components_never_negative
              (Arr2 2 2 [Fin 1; Fin 2; Fin 3; Fin 4])
              (Arr2 2 2 [Fin 2; Fin 1; Fin 0; Fin 5]))
    as (d1 & d2 & Hr & H1 & _ & H2).
  - reflexivity.
  - simpl; lia.
  - exists d1, d2. split; [exact Hr |]. split; [exact H1 |].
    apply H2. intros i Hi. simpl in Hi. unfold positive, alpha, alpha_of.
    destruct i as [| [| i]]; [| | lia]; simpl; unfold fin_div;
      match goal with
      | |- context [Req_dec_T ?d 0] => destruct (Req_dec_T d 0) as [E | E]
      end; try lra;
      (eexists; split; [reflexivity |]);
      apply Rdiv_lt_0_compat; lra.
Defined.

(* ================================================================== *)
(** ** Further properties of [compute_waveform_distance]: failures and
       degenerate inputs *)

(** X1: a call fails in two ways only.  It raises the shape assertion on
    different shapes, and [ValueError] exactly on equal shapes without any
    channel (an [(N, 0)] array), where [np.max] meets the empty [alphas];
    no index is ever out of range. *)
Theorem failures_are_shape_mismatch_or_no_channel (x y : ndarray) :
  (compute_waveform_distance x y = Raise ValueError
   <-> shape x = shape y /\ n_channels x = 0%nat)
  /\ (forall e : exn,
        compute_waveform_distance x y = Raise e ->
        e = ShapeMismatch \/ e = ValueError).
Proof.
  destruct (list_eq_dec Nat.eq_dec (shape x) (shape y)) as [Hs | Hs].
  - destruct (Nat.eq_dec (n_channels x) 0) as [Hc | Hc].
    + rewrite (compute_no_channel x y Hs Hc). split.
      * split; [now split | reflexivity].
      * intros e [= <-]. now right.
    + destruct (compute_returns x y Hs) as (a & m & _ & _ & Hr); [lia |].
      rewrite Hr. split.
      * split; [discriminate | intros [_ H]; contradiction].
      * discriminate.
  - rewrite (compute_shape_mismatch x y Hs). split.
    + split; [discriminate | intros [H _]; contradiction].
    + intros e [= <-]. now left.
Qed.

Lemma failures_are_shape_mismatch_or_no_channel_witness :
  compute_waveform_distance (Arr2 3 0 []) (Arr2 3 0 []) = Raise ValueError.
Proof.
  apply (proj1 (failures_are_shape_mismatch_or_no_channel
                  (Arr2 3 0 []) (Arr2 3 0 []))).
  split; reflexivity.
Defined.

(** A NaN among the scaling factors reaches both components. *)
Lemma nan_alpha_result (x y : ndarray) (i : nat) :
  shape x = shape y -> (i < n_channels x)%nat ->
  alpha_of (channel x i) (channel y i) = NaN ->
  compute_waveform_distance x y = Ok [NaN; NaN].
Proof.
  intros Hs Hi Hai.
  assert (Hd1 : d_1_of x y = NaN).
  { unfold d_1_of. apply (fold_left_xadd_term_nan _ _ i).
    - apply in_seq. lia.
    - apply d1_term_nan; [| exact Hai].
      rewrite !channel_length. now apply same_shape_samples. }
  assert (Hnan : In NaN (map (fun a => xabs (xlog a)) (alphas_of x y))).
  { apply in_map_iff. exists NaN. split; [reflexivity |].
    apply (nth_error_In _ i). rewrite nth_error_alphas_of by assumption.
    now rewrite Hai. }
  destruct (compute_returns x y Hs) as (a & m & Ha & _ & Hr); [lia |].
  rewrite (np_max_nan _ Hnan) in Ha. injection Ha as <-.
  now rewrite Hr, Hd1.
Qed.

(** X2: arrays of equal shape that hold no sample at all (shape [(0, C)]
    with [C >= 1], or two empty 1-dimensional arrays) raise nothing: every
    dot product is the empty sum 0, every scaling factor is [0/0], and the
    result is [[NaN, NaN]]. *)
Theorem no_sample_gives_nan (x y : ndarray) :
  shape x = shape y -> n_samples x = 0%nat -> (0 < n_channels x)%nat ->
  compute_waveform_distance x y = Ok [NaN; NaN].
Proof.
  intros Hs Hn Hc. apply (nan_alpha_result x y 0 Hs Hc).
  apply alpha_of_zero_channel.
  pose proof (channel_length x 0) as Hlen. rewrite Hn in Hlen.
  destruct (channel x 0); [intros v [] | discriminate].
Qed.

Lemma no_sample_gives_nan_witness :
  compute_waveform_distance (Arr2 0 2 []) (Arr2 0 2 []) = Ok [NaN; NaN]
  /\ compute_waveform_distance (Arr1 []) (Arr1 []) = Ok [NaN; NaN].
Proof.
  split; apply no_sample_gives_nan; try reflexivity; simpl; lia.
Defined.

(** X3: a negative scaling factor (a channel of [x] that correlates
    negatively with its channel of [y]) makes the second component NaN:
    its logarithm is NaN and [np.max] keeps it. *)
Theorem negative_alpha_gives_nan_d2 (x y : ndarray) (i : nat) (a : R) :
  shape x = shape y -> (i < n_channels x)%nat ->
  alpha x y i = Fin a -> a < 0 ->
  exists d1 : xreal, compute_waveform_distance x y = Ok [d1; NaN].
Proof.
  intros Hs Hi Hal Ha.
  assert (Hnan : In NaN (map (fun a => xabs (xlog a)) (alphas_of x y))).
  { apply in_map_iff. exists (Fin a). split.
    - now rewrite xlog_neg.
    - apply (nth_error_In _ i). rewrite nth_error_alphas_of by assumption.
      now rewrite <- Hal. }
  destruct (compute_returns x y Hs) as (d & m & Hd & _ & Hr); [lia |].
  rewrite (np_max_nan _ Hnan) in Hd. injection Hd as <-.
  exists (d_1_of x y). now rewrite Hr.
Qed.

Lemma alpha_of_singletons (u v : R) :
  u <> 0 -> alpha_of [Fin u] [Fin v] = Fin (v / u).
Proof.
  intros Hu. change [Fin u] with (map Fin [u]). change [Fin v] with (map Fin [v]).
  rewrite alpha_of_Fin. cbn [Rdot].
  rewrite fin_div_nonzero.
  - f_equal. field. assumption.
  - intros E. apply Hu. rewrite Rplus_0_r in E.
    destruct (Rmult_integral _ _ E); assumption.
Qed.

Lemma negative_alpha_gives_nan_d2_witness :
  exists d1 : xreal,
    compute_waveform_distance (Arr1 [Fin 1]) (Arr1 [Fin (-2)]) = Ok [d1; NaN].
Proof.
  apply (negative_alpha_gives_nan_d2 (Arr1 [Fin 1]) (Arr1 [Fin (-2)]) 0 (-2 / 1)).
  - reflexivity.
  - simpl; lia.
  - apply alpha_of_singletons. lra.
  - lra.
Defined.

Lemma alphas_of_cons (x y : ndarray) :
  (0 < n_channels x)%nat ->
  exists rest, alphas_of x y = alpha x y 0 :: rest.
Proof.
  intros Hc. unfold alphas_of.
  destruct (n_channels x) as [| c]; [lia |].
  cbn [seq map]. now eexists.
Qed.

Lemma in_alphas_of_alpha (x y : ndarray) (i : nat) :
  (i < n_channels x)%nat -> In (alpha x y i) (alphas_of x y).
Proof.
  intros Hi. apply (nth_error_In _ i). now apply nth_error_alphas_of.
Qed.

Lemma in_log_gaps_of (alphas : list xreal) (a b : xreal) :
  In a alphas -> In b alphas -> In (log_gap a b) (log_gaps alphas).
Proof.
  intros Ha Hb. unfold log_gaps. apply in_flat_map. exists a. split; [exact Ha |].
  now apply in_map.
Qed.

(** X4: with a single channel whose scaling factor is a positive number
    [a], the only pair is [(0, 0)], its log-difference is 0, and the second
    component is [|log a|]. *)
Theorem single_channel_d2_is_abs_log_alpha (x y : ndarray) (a : R) :
  shape x = shape y -> n_channels x = 1%nat ->
  alpha x y 0 = Fin a -> 0 < a ->
  exists d1 : xreal,
    compute_waveform_distance x y = Ok [d1; Fin (Rabs (ln a))].
Proof.
  intros Hs Hc Hal Ha.
  destruct (compute_returns x y Hs) as (d & m & Hd & Hm & Hr); [lia |].
  assert (E : alphas_of x y = [Fin a]).
  { unfold alphas_of. rewrite Hc. cbn [seq map]. fold (alpha x y 0).
    now rewrite Hal. }
  rewrite E in Hd, Hm.
  apply np_max_In in Hd. apply py_max_In in Hm.
  destruct Hd as [<- | []]. destruct Hm as [<- | []].
  exists (d_1_of x y). rewrite Hr. do 3 f_equal.
  unfold log_gap. rewrite xlog_pos by assumption. rewrite xsub_fin.
  cbn [xabs xadd]. f_equal. rewrite Rminus_diag, Rabs_R0. lra.
Qed.

Lemma single_channel_d2_is_abs_log_alpha_witness :
  exists d1 : xreal,
    compute_waveform_distance (Arr1 [Fin 2]) (Arr1 [Fin 6])
    = Ok [d1; Fin (Rabs (ln (6 / 2)))].
Proof.
  apply (single_channel_d2_is_abs_log_alpha (Arr1 [Fin 2]) (Arr1 [Fin 6])).
  - reflexivity.
  - reflexivity.
  - apply alpha_of_singletons. lra.
  - lra.
Defined.

Lemma py_fold_nan (t : list xreal) :
  fold_left (fun m e => if xgtb e m then e else m) t NaN = NaN.
Proof.
  induction t as [| e t IH]; [reflexivity |].
  cbn [fold_left]. now rewrite xgtb_nan_r.
Qed.

Lemma py_fold_not_nan (t : list xreal) :
  forall a : xreal,
    is_nan a = false ->
    is_nan (fold_left (fun m e => if xgtb e m then e else m) t a) = false.
Proof.
  induction t as [| e t IH]; intros a Ha; [exact Ha |].
  cbn [fold_left]. apply IH.
  destruct (xgtb e a) eqn:E; [| exact Ha].
  destruct e; try reflexivity. discriminate E.
Qed.

Lemma log_gap_zero_zero : log_gap (Fin 0) (Fin 0) = NaN.
Proof. unfold log_gap. now rewrite xlog_zero. Qed.

(** X5: when the first scaling factor is exactly 0 (channel 0 of [x] is
    orthogonal to channel 0 of [y]) the second component is NaN: the first
    entry of the list [d_2b] is [|-inf - (-inf)|], a NaN, and Python's
    [max] never leaves a NaN it starts from. *)
Theorem zero_first_alpha_gives_nan_d2 (x y : ndarray) :
  shape x = shape y -> (0 < n_channels x)%nat ->
  alpha x y 0 = Fin 0 ->
  exists d1 : xreal, compute_waveform_distance x y = Ok [d1; NaN].
Proof.
  intros Hs Hc Hal.
  destruct (compute_returns x y Hs Hc) as (d & m & _ & Hm & Hr).
  destruct (alphas_of_cons x y Hc) as (rest & E).
  rewrite E, Hal in Hm. unfold log_gaps, py_max in Hm.
  cbn [flat_map map app] in Hm. rewrite log_gap_zero_zero, py_fold_nan in Hm.
  injection Hm as <-. exists (d_1_of x y). now rewrite Hr, xadd_nan_r.
Qed.

Lemma zero_first_alpha_gives_nan_d2_witness :
  exists d1 : xreal,
    compute_waveform_distance (Arr2 1 2 [Fin 1; Fin 1]) (Arr2 1 2 [Fin 0; Fin 1])
    = Ok [d1; NaN].
Proof.
  apply zero_first_alpha_gives_nan_d2.
  - reflexivity.
  - simpl; lia.
  - change (alpha_of [Fin 1] [Fin 0] = Fin 0).
    rewrite alpha_of_singletons by lra. f_equal. lra.
Defined.

Lemma is_max_of_pinf (l : list xreal) (m : xreal) :
  is_max_of m l -> In PInf l -> is_nan m = false -> m = PInf.
Proof.
  intros [_ Hmax] Hin Hm. specialize (Hmax PInf Hin).
  destruct m; try reflexivity; discriminate.
Qed.

Lemma abs_log_nonnegative_alpha (a : R) :
  0 <= a -> is_nan (xabs (xlog (Fin a))) = false.
Proof.
  intros [Ha | <-].
  - now rewrite xlog_pos.
  - now rewrite xlog_zero.
Qed.

(** X6: when every scaling factor is a number that is not negative, the
    first is positive and a later one is exactly 0, the second component
    is plus infinity: [d_2a] is [|log 0|], and Python's [max], started
    from the number [|log a_0 - log a_0| = 0], passes over the NaN of the
    pair of the zero factor with itself.  With X5: the second component
    depends on the order of the channels. *)
Theorem zero_later_alpha_gives_inf_d2 (x y : ndarray) (j : nat) :
  shape x = shape y ->
  (forall i, (i < n_channels x)%nat -> exists a, alpha x y i = Fin a /\ 0 <= a) ->
  positive (alpha x y 0) ->
  (j < n_channels x)%nat -> alpha x y j = Fin 0 ->
  exists d1 : xreal, compute_waveform_distance x y = Ok [d1; PInf].
Proof.
  intros Hs Hall (a0 & H0 & Ha0) Hj Hzero.
  assert (Hc : (0 < n_channels x)%nat) by lia.
  destruct (compute_returns x y Hs Hc) as (d & m & Hd & Hm & Hr).
  assert (Ed : d = PInf).
  { apply (is_max_of_pinf (map (fun a => xabs (xlog a)) (alphas_of x y))).
    - now apply np_max_is_max.
    - apply in_map_iff. exists (Fin 0). split; [now rewrite xlog_zero |].
      rewrite <- Hzero. now apply in_alphas_of_alpha.
    - apply np_max_In in Hd. apply in_map_iff in Hd.
      destruct Hd as (v & <- & Hv). apply in_alphas_of in Hv.
      destruct Hv as (i & Hi & ->). destruct (Hall i Hi) as (a & Ha & Hpos).
      unfold alpha in Ha. rewrite Ha. now apply abs_log_nonnegative_alpha. }
  assert (Em : m = PInf).
  { apply (is_max_of_pinf (log_gaps (alphas_of x y))).
    - now apply py_max_is_max.
    - replace PInf with (log_gap (alpha x y 0) (alpha x y j)).
      + apply in_log_gaps_of; now apply in_alphas_of_alpha.
      + rewrite H0, Hzero. unfold log_gap.
        rewrite xlog_pos by assumption. now rewrite xlog_zero.
    - destruct (alphas_of_cons x y Hc) as (rest & E).
      rewrite E, H0 in Hm. unfold log_gaps, py_max in Hm.
      cbn [flat_map map app] in Hm. injection Hm as <-.
      apply py_fold_not_nan. unfold log_gap.
      rewrite xlog_pos by assumption. now rewrite xsub_fin. }
  subst d m. exists (d_1_of x y). now rewrite Hr.
Qed.

Lemma zero_later_alpha_gives_inf_d2_witness :
  exists d1 : xreal,
    compute_waveform_distance (Arr2 1 2 [Fin 1; Fin 1]) (Arr2 1 2 [Fin 1; Fin 0])
    = Ok [d1; PInf].
Proof.
  assert (A0 : alpha (Arr2 1 2 [Fin 1; Fin 1]) (Arr2 1 2 [Fin 1; Fin 0]) 0
               = Fin (1 / 1)).
  { change (alpha_of [Fin 1] [Fin 1] = Fin (1 / 1)).
    apply alpha_of_singletons. lra. }
  assert (A1 : alpha (Arr2 1 2 [Fin 1; Fin 1]) (Arr2 1 2 [Fin 1; Fin 0]) 1
               = Fin 0).
  { change (alpha_of [Fin 1] [Fin 0] = Fin 0).
    rewrite alpha_of_singletons by lra. f_equal. lra. }
  apply (zero_later_alpha_gives_inf_d2 _ _ 1).
  - reflexivity.
  - intros i Hi. simpl in Hi. destruct i as [| [| i]]; [| | lia].
    + exists (1 / 1). split; [exact A0 | lra].
    + exists 0. split; [exact A1 | lra].
  - exists (1 / 1). split; [exact A0 | lra].
  - simpl; lia.
  - exact A1.
Defined.

(* ================================================================== *)
(** ** Properties of [vec_norm] *)

Lemma np_sum_square_fold (v : list xreal) (s : xreal) :
  fold_left xadd (square v) s = fold_left (fun s a => xadd s (xmul a a)) v s.
Proof. unfold square. symmetry. apply fold_left_xadd_map. Qed.

(** The running sum of squares: without NaN it stays a number that is not
    negative or plus infinity, and plus infinity is kept. *)
Lemma sum_squares_no_nan (v : list xreal) :
  ~ In NaN v ->
  forall s : xreal,
    nonneg s \/ s = PInf ->
    let r := fold_left (fun s a => xadd s (xmul a a)) v s in
    (nonneg r \/ r = PInf)
    /\ (s = PInf \/ In PInf v \/ In NInf v -> r = PInf).
Proof.
  induction v as [| a v IH]; intros Hn s Hs; cbn [fold_left].
  - split; [exact Hs |]. intros [H | [[] | []]]. exact H.
  - assert (Hn' : ~ In NaN v) by (intros H; apply Hn; now right).
    assert (Ha : a <> NaN) by (intros ->; apply Hn; now left).
    assert (Hstep : (nonneg (xadd s (xmul a a)) \/ xadd s (xmul a a) = PInf)
                    /\ (s = PInf \/ a = PInf \/ a = NInf ->
                        xadd s (xmul a a) = PInf)).
    { destruct Hs as [(r & -> & Hr) | ->]; destruct a as [t | | |];
        try contradiction; cbn [xmul xadd]; split; auto.
      - left. exists (r + t * t). split; [reflexivity |].
        pose proof (Rle_0_sqr t) as Ht. unfold Rsqr in Ht. lra.
      - intros [H | [H | H]]; discriminate H. }
    destruct Hstep as [Hs1 Hs2].
    destruct (IH Hn' _ Hs1) as [H1 H2]. split; [exact H1 |].
    intros [H | [[H | H] | [H | H]]]; apply H2; auto.
Qed.

Lemma in_nan_dec (v : list xreal) : {In NaN v} + {~ In NaN v}.
Proof.
  induction v as [| a v [IH | IH]].
  - right. intros [].
  - left. now right.
  - destruct a; try (right; intros [H | H]; [discriminate H | contradiction]).
    left. now left.
Qed.

(** X7: [vec_norm] raises nothing and is never negative: its value is a
    number that is not negative, plus infinity or NaN.  It is NaN exactly
    when an entry is NaN, and without NaN it is plus infinity as soon as an
    entry is infinite. *)
Theorem vec_norm_never_negative (v : list xreal) :
  never_negative (vec_norm v)
  /\ (vec_norm v = NaN <-> In NaN v)
  /\ (~ In NaN v -> In PInf v \/ In NInf v -> vec_norm v = PInf).
Proof.
  assert (Hnan : In NaN v -> vec_norm v = NaN).
  { intros Hin. unfold vec_norm, np_sum. rewrite np_sum_square_fold.
    rewrite (fold_left_xadd_term_nan (fun a => xmul a a) v NaN Hin eq_refl).
    reflexivity. }
  assert (Hfree : ~ In NaN v ->
            (nonneg (np_sum (square v)) \/ np_sum (square v) = PInf)
            /\ (In PInf v \/ In NInf v -> np_sum (square v) = PInf)).
  { intros Hn. unfold np_sum. rewrite np_sum_square_fold.
    destruct (sum_squares_no_nan v Hn (Fin 0)) as [H1 H2].
    { left. exists 0. split; [reflexivity | lra]. }
    split; [exact H1 | intros H; apply H2; now right]. }
  split; [apply never_negative_vec_norm |]. split; [split |].
  - intros E. destruct (in_nan_dec v) as [H | H]; [exact H | exfalso].
    destruct (Hfree H) as [[(r & Er & Hr) | Er] _];
      unfold vec_norm in E; rewrite Er in E.
    + rewrite xsqrt_fin in E by assumption. discriminate E.
    + discriminate E.
  - exact Hnan.
  - intros Hn Hinf. destruct (Hfree Hn) as [_ H].
    unfold vec_norm. now rewrite (H Hinf).
Qed.

Lemma vec_norm_never_negative_witness :
  vec_norm [Fin 3; NaN; PInf] = NaN
  /\ vec_norm [Fin 3; NInf] = PInf.
Proof.
  split.
  - apply (proj2 (proj1 (proj2 (vec_norm_never_negative [Fin 3; NaN; PInf])))).
    simpl; auto.
  - apply (proj2 (proj2 (vec_norm_never_negative [Fin 3; NInf]))).
    + simpl. intros [H | [H | []]]; discriminate H.
    + right. simpl; auto.
Defined.

Lemma Rdot_zero_l (a b : list R) :
  (forall u, In u a -> u = 0) -> Rdot a b = 0.
Proof.
  revert b. induction a as [| u a IH]; intros b Hz; [reflexivity |].
  destruct b as [| v b]; [reflexivity |].
  cbn [Rdot]. rewrite (Hz u) by now left.
  rewrite IH by (intros w Hw; apply Hz; now right). ring.
Qed.

(* ================================================================== *)
(** ** Further properties of the shape distance [d_1] *)

Lemma sq_residual_zero_alpha (a b : list R) :
  length a = length b -> sq_residual 0 a b = Rdot b b.
Proof. intros Hlen. rewrite sq_residual_expand by assumption. ring. Qed.

Lemma alpha_of_Fin_pos (a b : list R) :
  0 < Rdot a a ->
  alpha_of (map Fin a) (map Fin b) = Fin (Rdot a b / Rdot a a).
Proof. intros H. rewrite alpha_of_Fin. apply fin_div_nonzero. lra. Qed.

Lemma Rdot_comm (a b : list R) : Rdot a b = Rdot b a.
Proof.
  revert b. induction a as [| u a IH]; intros b; destruct b as [| v b];
    try reflexivity.
  cbn [Rdot]. rewrite IH. ring.
Qed.

Lemma zero_channel_samples (x : ndarray) (i : nat) :
  zero_channel x i -> forall u, In u (samples x i) -> u = 0.
Proof.
  intros Hz u Hu. unfold samples in Hu. apply in_map_iff in Hu.
  destruct Hu as (v & <- & Hv). now rewrite (Hz v Hv).
Qed.

Lemma d_1_of_nan_term (x y : ndarray) (i : nat) :
  (i < n_channels x)%nat ->
  d1_term (channel x i) (channel y i) = NaN -> d_1_of x y = NaN.
Proof.
  intros Hi H. unfold d_1_of. apply (fold_left_xadd_term_nan _ _ i);
    [apply in_seq; lia | exact H].
Qed.

(** X12: for real-valued waveforms of equal shape, a channel of [y] that
    is entirely zero makes the first component NaN, never infinite: the
    scaling factor is then 0 (or NaN), the residual vanishes with [y_i],
    and the summand is [0/0]. *)
Theorem zero_y_channel_gives_nan_d1 (x y : ndarray) (i : nat) :
  waveform x -> waveform y -> shape x = shape y ->
  (i < n_channels x)%nat -> zero_channel y i ->
  exists d2 : xreal, compute_waveform_distance x y = Ok [NaN; d2].
Proof.
  intros Hx Hy Hs Hi Hz.
  assert (Hlen : length (samples x i) = length (samples y i))
    by (rewrite !samples_length; now apply same_shape_samples).
  pose proof (zero_channel_samples y i Hz) as Hb.
  assert (HP : Rdot (samples x i) (samples y i) = 0)
    by (rewrite Rdot_comm; now apply Rdot_zero_l).
  assert (HQ : Rdot (samples y i) (samples y i) = 0) by now apply Rdot_zero_l.
  assert (Ht : d1_term (channel x i) (channel y i) = NaN).
  { destruct (Rdot_self_nonneg (samples x i)) as [HD | HD].
    - rewrite (channel_samples x i Hx), (channel_samples y i Hy).
      rewrite (d1_term_Fin _ _ _ (alpha_of_Fin_pos _ _ HD)).
      rewrite HP. replace (0 / Rdot (samples x i) (samples x i)) with 0
        by (unfold Rdiv; ring).
      rewrite sq_residual_zero_alpha by assumption.
      rewrite HQ, sqrt_0. apply fin_div_0_0.
    - apply d1_term_nan.
      + rewrite !channel_length. now apply same_shape_samples.
      + rewrite (channel_samples x i Hx), (channel_samples y i Hy).
        rewrite alpha_of_Fin, HP, <- HD. apply fin_div_0_0. }
  destruct (compute_returns x y Hs) as (a & m & _ & _ & Hr); [lia |].
  exists (xadd a m). now rewrite Hr, (d_1_of_nan_term x y i Hi Ht).
Qed.

Lemma zero_y_channel_gives_nan_d1_witness :
  exists d2 : xreal,
    compute_waveform_distance (Arr2 2 2 [Fin 1; Fin 2; Fin 3; Fin 4])
                              (Arr2 2 2 [Fin 2; Fin 0; Fin 5; Fin 0])
    = Ok [NaN; d2].
Proof.
  apply (zero_y_channel_gives_nan_d1 _ _ 1).
  - finite_entries.
  - finite_entries.
  - reflexivity.
  - simpl; lia.
  - unfold zero_channel; simpl. intros v [<- | [<- | []]]; reflexivity.
Defined.

(* ================================================================== *)
(** ** Further properties of the scale distance [d_2] *)

Lemma abs_log_zero_iff (a : R) :
  0 < a -> xabs (xlog (Fin a)) = Fin 0 <-> a = 1.
Proof.
  intros Ha. rewrite xlog_pos by assumption. cbn [xabs]. split.
  - intros [= E]. apply ln_inv; [assumption | lra |]. rewrite ln_1.
    destruct (Req_dec (ln a) 0) as [H | H]; [exact H |].
    now apply Rabs_no_R0 in H.
  - intros ->. now rewrite ln_1, Rabs_R0.
Qed.

(** X16: when every scaling factor is a positive number, the second
    component is 0 exactly when every scaling factor is 1. *)
Theorem d2_zero_iff_all_alphas_one (x y : ndarray) :
  shape x = shape y -> (0 < n_channels x)%nat ->
  (forall i, (i < n_channels x)%nat -> positive (alpha x y i)) ->
  (exists d1 : xreal, compute_waveform_distance x y = Ok [d1; Fin 0])
  <-> (forall i, (i < n_channels x)%nat -> alpha x y i = Fin 1).
Proof.
  intros Hs Hc Hpos.
  destruct (compute_returns x y Hs Hc) as (a & m & Ha & Hm & Hr).
  assert (Hall : forall v, In v (alphas_of x y) -> positive v).
  { intros v Hv. apply in_alphas_of in Hv. destruct Hv as (i & Hi & ->).
    now apply Hpos. }
  assert (Hna : nonneg a).
  { pose proof (np_max_In _ _ Ha) as Hin. apply in_map_iff in Hin.
    destruct Hin as (v & <- & Hv). now apply nonneg_abs_log, Hall. }
  assert (Hnm : nonneg m).
  { pose proof (py_max_In _ _ Hm) as Hin. apply in_log_gaps in Hin.
    destruct Hin as (u & v & Hu & Hv & ->). apply nonneg_log_gap; now apply Hall. }
  destruct Hna as (ra & -> & Hra). destruct Hnm as (rm & -> & Hrm).
  rewrite Hr. cbn [xadd]. split.
  - intros (d1 & [= _ E]) i Hi.
    assert (ra = 0) by lra. subst ra.
    destruct (Hpos i Hi) as (r & Er & Hr0). rewrite Er. f_equal.
    apply abs_log_zero_iff; [assumption |].
    destruct (np_max_is_max _ _ Ha) as [_ Hmax].
    specialize (Hmax (xabs (xlog (Fin r)))).
    rewrite xlog_pos in * by assumption. cbn [xabs] in *. f_equal.
    assert (Hle : Rabs (ln r) <= 0).
    { apply xgtb_fin_false. apply Hmax.
      apply in_map_iff. exists (Fin r). split; [now rewrite xlog_pos |].
      rewrite <- Er. now apply in_alphas_of_alpha. }
    pose proof (Rabs_pos (ln r)). lra.
  - intros Hone. exists (d_1_of x y).
    assert (Hv : forall v, In v (alphas_of x y) -> v = Fin 1).
    { intros v Hv. apply in_alphas_of in Hv. destruct Hv as (i & Hi & ->).
      now apply Hone. }
    apply np_max_In in Ha. apply in_map_iff in Ha.
    destruct Ha as (v & Ea & Hin). rewrite (Hv v Hin), abs_log_one in Ea.
    apply py_max_In in Hm. apply in_log_gaps in Hm.
    destruct Hm as (u & w & Hu & Hw & Em).
    rewrite (Hv u Hu), (Hv w Hw), log_gap_one_one in Em.
    injection Ea as Ea. injection Em as Em.
    replace (ra + rm) with 0 by lra. reflexivity.
Qed.

Lemma d2_zero_iff_all_alphas_one_witness :
  exists d1 : xreal,
    compute_waveform_distance (Arr1 [Fin 2; Fin 1]) (Arr1 [Fin 1; Fin 3])
    = Ok [d1; Fin 0].
Proof.
  assert (A : alpha (Arr1 [Fin 2; Fin 1]) (Arr1 [Fin 1; Fin 3]) 0 = Fin 1).
  { change (alpha_of (map Fin [2; 1]) (map Fin [1; 3]) = Fin 1).
    rewrite alpha_of_Fin_pos by (simpl; lra). f_equal. simpl. field. }
  apply (proj2 (d2_zero_iff_all_alphas_one
                  (Arr1 [Fin 2; Fin 1]) (Arr1 [Fin 1; Fin 3]) eq_refl
                  ltac:(simpl; lia)
                  ltac:(intros i Hi; simpl in Hi;
                        assert (i = 0%nat) by lia; subst i;
                        exists 1; split; [exact A | lra]))).
  intros i Hi. simpl in Hi. assert (i = 0%nat) by lia. subst i. exact A.
Defined.

Lemma log_gap_positive (a b : R) :
  0 < a -> 0 < b -> log_gap (Fin a) (Fin b) = Fin (Rabs (ln a - ln b)).
Proof.
  intros Ha Hb. unfold log_gap. rewrite !xlog_pos by assumption.
  now rewrite xsub_fin.
Qed.






(** X19: when all channels have the same positive scaling factor [a],
    every pairwise log-difference is 0, so [max(d_2b)] is 0 and the second
    component is [|log a|]. *)
Theorem equal_positive_alphas_d2 (x y : ndarray) (a : R) :
  shape x = shape y -> (0 < n_channels x)%nat -> 0 < a ->
  (forall i, (i < n_channels x)%nat -> alpha x y i = Fin a) ->
  exists l : locals,
    body x y = Ok l
    /\ py_max (d_2b l) = Ok (Fin 0)
    /\ compute_waveform_distance x y = Ok [d_1 l; Fin (Rabs (ln a))].
Proof.
  intros Hs Hc Ha Hall.
  destruct (body_returns x y Hs Hc) as (d & m & Hd & Hm & Hb).
  assert (Hv : forall v, In v (alphas_of x y) -> v = Fin a).
  { intros v Hv. apply in_alphas_of in Hv. destruct Hv as (i & Hi & ->).
    now apply Hall. }
  pose proof (np_max_In _ _ Hd) as Hind. apply in_map_iff in Hind.
  destruct Hind as (v & Ed & Hin). rewrite (Hv v Hin) in Ed.
  pose proof (py_max_In _ _ Hm) as Hinm. apply in_log_gaps in Hinm.
  destruct Hinm as (u & w & Hu & Hw & Em).
  rewrite (Hv u Hu), (Hv w Hw), log_gap_positive in Em by assumption.
  rewrite Rminus_diag, Rabs_R0 in Em.
  rewrite xlog_pos in Ed by assumption. cbn [xabs] in Ed.
  subst d m. eexists. split; [exact Hb |]. cbn [d_2b d_1].
  split; [exact Hm |].
  unfold compute_waveform_distance. rewrite Hb. cbn [bind d_1 d_2 xadd].
  now rewrite Rplus_0_r.
Qed.

Lemma equal_positive_alphas_d2_witness :
  exists l : locals,
    body (Arr2 1 2 [Fin 1; Fin 2]) (Arr2 1 2 [Fin 3; Fin 6]) = Ok l
    /\ py_max (d_2b l) = Ok (Fin 0)
    /\ compute_waveform_distance (Arr2 1 2 [Fin 1; Fin 2]) (Arr2 1 2 [Fin 3; Fin 6])
       = Ok [d_1 l; Fin (Rabs (ln 3))].
Proof.
  apply equal_positive_alphas_d2.
  - reflexivity.
  - simpl; lia.
  - lra.
  - intros i Hi. simpl in Hi. destruct i as [| [| i]]; [| | lia].
    + change (alpha_of [Fin 1] [Fin 3] = Fin 3).
      rewrite alpha_of_singletons by lra. f_equal. lra.
    + change (alpha_of [Fin 2] [Fin 6] = Fin 3).
      rewrite alpha_of_singletons by lra. f_equal. lra.
Defined.

(* ================================================================== *)
(** ** NaN and infinite samples *)

Lemma dot_nan_acc (a b : list xreal) : dot a b NaN = NaN.
Proof.
  revert b. induction a as [| u a IH]; intros b; [reflexivity |].
  destruct b as [| v b]; [reflexivity |]. cbn [dot xadd]. apply IH.
Qed.

Lemma dot_nan_entry (a b : list xreal) :
  length a = length b -> In NaN a \/ In NaN b ->
  forall acc : xreal, dot a b acc = NaN.
Proof.
  revert b. induction a as [| u a IH]; intros b Hlen Hin acc;
    destruct b as [| v b]; try discriminate Hlen.
  - destruct Hin as [[] | []].
  - cbn [dot].
    assert (Hhead : u = NaN \/ v = NaN \/ (In NaN a \/ In NaN b)).
    { destruct Hin as [[H | H] | [H | H]]; auto. }
    destruct Hhead as [-> | [-> | Hrest]].
    + now rewrite xmul_nan_l, xadd_nan_r, dot_nan_acc.
    + now rewrite xmul_comm, xmul_nan_l, xadd_nan_r, dot_nan_acc.
    + apply IH; [simpl in Hlen; lia | exact Hrest].
Qed.

(** X22: a NaN sample anywhere in a channel of [x] or of [y] raises
    nothing and makes the whole result [[NaN, NaN]]: the scaling factor of
    that channel is NaN, and both the sum [d_1] and [np.max] keep it. *)
Theorem nan_sample_gives_nan (x y : ndarray) (i : nat) :
  shape x = shape y -> (i < n_channels x)%nat ->
  In NaN (channel x i) \/ In NaN (channel y i) ->
  compute_waveform_distance x y = Ok [NaN; NaN].
Proof.
  intros Hs Hi Hin. apply (nan_alpha_result x y i Hs Hi).
  assert (Hlen : length (channel x i) = length (channel y i))
    by (rewrite !channel_length; now apply same_shape_samples).
  unfold alpha_of. rewrite (dot_nan_entry _ _ Hlen Hin). reflexivity.
Qed.

Lemma nan_sample_gives_nan_witness :
  compute_waveform_distance (Arr2 2 2 [Fin 1; Fin 2; Fin 3; Fin 4])
                            (Arr2 2 2 [Fin 2; Fin 1; NaN; Fin 5])
  = Ok [NaN; NaN].
Proof.
  apply (nan_sample_gives_nan _ _ 0).
  - reflexivity.
  - simpl; lia.
  - right. simpl. auto.
Defined.

(** Plus or minus infinity, or NaN: what a sum that has met an infinite
    term can be. *)
Lemma xadd_not_finite (s t : xreal) : ~ is_fin t -> ~ is_fin (xadd s t).
Proof. destruct s, t; simpl; auto. Qed.

Lemma xadd_not_finite_l (s t : xreal) : ~ is_fin s -> ~ is_fin (xadd s t).
Proof. rewrite xadd_comm. apply xadd_not_finite. Qed.

Lemma xmul_infinite_l (u v : xreal) :
  u = PInf \/ u = NInf -> ~ is_fin (xmul u v).
Proof.
  intros [-> | ->]; destruct v as [r | | |]; simpl; auto;
    unfold inf_times; destruct (total_order_T r 0) as [[H | H] | H];
    simpl; auto.
Qed.

Lemma dot_not_finite_acc (a b : list xreal) :
  forall acc : xreal, ~ is_fin acc -> ~ is_fin (dot a b acc).
Proof.
  revert b. induction a as [| u a IH]; intros b acc H; [exact H |].
  destruct b as [| v b]; [exact H |].
  cbn [dot]. apply IH. now apply xadd_not_finite_l.
Qed.

Lemma dot_infinite_entry (a b : list xreal) :
  length a = length b -> In PInf a \/ In NInf a ->
  forall acc : xreal, ~ is_fin (dot a b acc).
Proof.
  revert b. induction a as [| u a IH]; intros b Hlen Hin acc;
    destruct b as [| v b]; try discriminate Hlen.
  - destruct Hin as [[] | []].
  - cbn [dot].
    assert (Hhead : (u = PInf \/ u = NInf) \/ (In PInf a \/ In NInf a)).
    { destruct Hin as [[H | H] | [H | H]]; auto. }
    destruct Hhead as [Hu | Hrest].
    + apply dot_not_finite_acc, xadd_not_finite. now apply xmul_infinite_l.
    + apply IH; [simpl in Hlen; lia | exact Hrest].
Qed.

Lemma xdiv_not_finite (a b : xreal) :
  ~ is_fin a -> ~ is_fin b -> xdiv a b = NaN.
Proof.
  destruct a, b; simpl; intros Ha Hb; try reflexivity;
    exfalso; (apply Ha; exact I) || (apply Hb; exact I).
Qed.

(** X23: an infinite sample in a channel of [x] raises nothing and makes
    the whole result [[NaN, NaN]]: both dot products of that channel are
    infinite or NaN, and so their quotient is NaN. *)
Theorem infinite_x_sample_gives_nan (x y : ndarray) (i : nat) :
  shape x = shape y -> (i < n_channels x)%nat ->
  In PInf (channel x i) \/ In NInf (channel x i) ->
  compute_waveform_distance x y = Ok [NaN; NaN].
Proof.
  intros Hs Hi Hin. apply (nan_alpha_result x y i Hs Hi).
  assert (Hlen : length (channel x i) = length (channel y i))
    by (rewrite !channel_length; now apply same_shape_samples).
  unfold alpha_of. apply xdiv_not_finite.
  - now apply dot_infinite_entry.
  - now apply dot_infinite_entry.
Qed.

Lemma infinite_x_sample_gives_nan_witness :
  compute_waveform_distance (Arr2 2 2 [Fin 1; Fin 2; NInf; Fin 4])
                            (Arr2 2 2 [Fin 2; Fin 1; Fin 0; Fin 5])
  = Ok [NaN; NaN].
Proof.
  apply (infinite_x_sample_gives_nan _ _ 0).
  - reflexivity.
  - simpl; lia.
  - right. simpl. auto.
Defined.

(* ================================================================== *)
(** ** Rounding, overflow and underflow: runs on binary64 numbers *)

Module F64_examples.

Import PrimFloat.
Set Warnings "-inexact-float".

Ltac float_value :=
  match goal with
  | |- context [FloatOps.Prim2SF ?f] =>
      let v := eval vm_compute in (FloatOps.Prim2SF f) in
      replace (FloatOps.Prim2SF f) with v by (vm_compute; reflexivity)
  end;
  cbv iota beta zeta;
  try match goal with
      | |- context [Z.pow_pos 2 ?p] =>
          let v := eval vm_compute in (Z.pow_pos 2 p) in
          replace (Z.pow_pos 2 p) with v by (vm_compute; reflexivity)
      end.

Lemma B2R_1 : F64.B2R 1%float = 1%R.
Proof. unfold F64.B2R. float_value. lra. Qed.

Lemma B2R_3 : F64.B2R 3%float = 3%R.
Proof. unfold F64.B2R. float_value. lra. Qed.

Lemma B2R_1e8 : F64.B2R 1e8%float = 100000000%R.
Proof. unfold F64.B2R. float_value. lra. Qed.

Lemma B2R_3e8 : F64.B2R 3e8%float = 300000000%R.
Proof. unfold F64.B2R. float_value. lra. Qed.

Lemma B2R_alpha_rounded :
  F64.B2R 3.0000000000000004%float
  = (6755399441055745 / 2251799813685248)%R.
Proof. unfold F64.B2R. float_value. reflexivity. Qed.

(** C2 as stated fails on the binary64 numbers the code computes with.
    For [x = [1, 1e8]] and [y = 3 * x] the products and sums round:
    [dot(x, x) = 1e16 > 0], [dot(x, y) = 3e16 + 4], and the stored scaling
    factor is 3.0000000000000004.  The real number 3 leaves the residual
    0, the stored factor a larger one: it is not the minimiser. *)
Lemma C2_counterexample_rounded_alpha :
  F64.body (F64.Arr1 [1; 1e8]%float) (F64.Arr1 [3; 3e8]%float)
  = Ok ([3.0000000000000004]%float, 1.9868214925130209e-16%float)
  /\ F64.dot [1; 1e8]%float [1; 1e8]%float 0%float = 1e16%float
  /\ map F64.B2R [1; 1e8]%float = [1; 100000000]%R
  /\ map F64.B2R [3; 3e8]%float = [3; 300000000]%R
  /\ (sq_residual 3 [1; 100000000] [3; 300000000]
      < sq_residual (F64.B2R 3.0000000000000004%float)
                    [1; 100000000] [3; 300000000])%R.
Proof.
  split; [vm_compute; reflexivity |].
  split; [vm_compute; reflexivity |].
  split; [cbn [map]; now rewrite B2R_1, B2R_1e8 |].
  split; [cbn [map]; now rewrite B2R_3, B2R_3e8 |].
  rewrite B2R_alpha_rounded. cbn [sq_residual].
  assert (H : (6755399441055745 / 2251799813685248 - 3
               = / 2251799813685248)%R) by lra.
  assert (P : (0 < / 2251799813685248)%R)
    by (apply Rinv_0_lt_compat; lra).
  nra.
Qed.

(** C7 as stated fails on binary64 numbers: for [x = y = [1e200]], equal
    entry by entry and not zero, [dot(x, x)] overflows to infinity, the
    scaling factor is [inf / inf = NaN] instead of 1, and [d_1] is NaN
    instead of 0. *)
Lemma C7_counterexample_overflow :
  F64.body (F64.Arr1 [1e200]%float) (F64.Arr1 [1e200]%float)
  = Ok ([nan], nan).
Proof. vm_compute. reflexivity. Qed.

(** C8 as stated fails on binary64 numbers: for the single channel
    [x = [1, 1e8]] and [k = 3], the call on [x] and [k * x] stores the
    scaling factor 3.0000000000000004, not [k], and leaves
    [d_1 = 1.9868214925130209e-16], not 0. *)
Lemma C8_counterexample_rounding :
  F64.scale_array 3%float (F64.Arr1 [1; 1e8]%float) = F64.Arr1 [3; 3e8]%float
  /\ F64.body (F64.Arr1 [1; 1e8]%float)
              (F64.scale_array 3%float (F64.Arr1 [1; 1e8]%float))
     = Ok ([3.0000000000000004]%float, 1.9868214925130209e-16%float)
  /\ eqb 3.0000000000000004%float 3%float = false
  /\ eqb 1.9868214925130209e-16%float 0%float = false.
Proof. repeat split; vm_compute; reflexivity. Qed.

(** C10 as stated fails on binary64 numbers: for [x = [1.0]] and
    [y = [1e-200]] the scaling factor [1e-200] is strictly positive and
    [y] is not zero, but the square of [1e-200] underflows to 0, both norms
    are 0 and [d_1 = 0 / 0] is NaN, which is not [>= 0]. *)
Lemma C10_counterexample_underflow :
  F64.body (F64.Arr1 [1]%float) (F64.Arr1 [1e-200]%float)
  = Ok ([1e-200]%float, nan)
  /\ ltb 0%float 1e-200%float = true
  /\ F64.vec_norm [1e-200]%float = 0%float
  /\ leb 0%float nan = false.
Proof. repeat split; vm_compute; reflexivity. Qed.

End F64_examples.
